(** * libuci: option registry, argument reader, command handlers,
      score formatting and work thread

    A shallow embedding of [ext/libuci/uci.h] and [ext/libuci/uci.cpp].

    Conventions of the embedding:
    - [std::string] is [string], and so is a [std::string_view] whose
      storage outlives every use of the view; a view that can outlive
      its storage is a [string_view], which says whether the storage
      still exists; a position in a text is a [nat];
    - [std::int64_t] values are [Z]; [int] arithmetic is [Z] arithmetic
      followed by [wrap_int], the two's-complement wrap-around a 32-bit
      target performs;
    - a C++ function that may throw returns a [result]; when the state
      reached at the throw matters, the function returns it next to the
      [result];
    - the process-wide tables are fields of an explicit [World];
    - loops whose termination is not structural are iterated by
      [while_loop] under a step budget, [None] meaning that the loop is
      still running when the budget is spent. *)

From Stdlib Require Import ZArith String Ascii List Lia DecimalString.
From Stdlib Require DecimalPos.
From stdpp Require Import gmap strings sorting.
Import ListNotations.

Open Scope string_scope.
Open Scope Z_scope.

(** [simpl] may unfold the concatenation of texts on a constructor. *)
#[local] Arguments String.append !s1 s2 : simpl nomatch.

(* ===================================================================== *)
(** ** Exceptions and results *)
(* ===================================================================== *)

(** The exception classes the library throws or lets through. *)
Inductive exception : Type :=
  | InputError (what : string)
  | std_invalid_argument (what : string)
  | std_out_of_range (what : string)
  | std_bad_variant_access.

Inductive result (A : Type) : Type :=
  | Return (a : A)
  | Throw (e : exception).

Arguments Return {A} a.
Arguments Throw {A} e.

Definition returns {A : Type} (r : result A) : Prop :=
  exists a, r = Return a.

(** Sequencing: an exception of the first computation ends the whole. *)
Definition bind {A B : Type} (r : result A) (k : A -> result B) : result B :=
  match r with
  | Return a => k a
  | Throw e => Throw e
  end.

Notation "'try!' x <- r ; k" := (bind r (fun x => k))
  (at level 10, x name, r at level 100, k at level 200).

(** A [while] loop: [step] either yields the next loop state or leaves the
    loop with a value. *)
Inductive loop_step (S R : Type) : Type :=
  | Continue (s : S)
  | Break (r : R).

Arguments Continue {S R} s.
Arguments Break {S R} r.

Fixpoint while_loop {S R : Type} (step : S -> loop_step S R)
         (budget : nat) (s : S) : option R :=
  match budget with
  | O => None
  | Datatypes.S budget' =>
      match step s with
      | Continue s' => while_loop step budget' s'
      | Break r => Some r
      end
  end.

(* ===================================================================== *)
(** ** Characters, texts and numerals *)
(* ===================================================================== *)

(** [std::isspace] in the "C" locale: space, and the controls 9 to 13. *)
Definition isspace (c : ascii) : bool :=
  let n := N_of_ascii c in
  (n =? 32)%N || ((9 <=? n)%N && (n <=? 13)%N).

Definition isdigit (c : ascii) : bool :=
  let n := N_of_ascii c in
  ((48 <=? n)%N && (n <=? 57)%N).

Definition digit_value (c : ascii) : Z :=
  Z.of_N (N_of_ascii c) - 48.

(** Number of leading characters of [s] on which [pred] holds. *)
Fixpoint run_length (pred : ascii -> bool) (s : string) : nat :=
  match s with
  | EmptyString => O
  | String c s' => if pred c then S (run_length pred s') else O
  end.

(** [s.substr(pos)] for [pos <= s.size()]. *)
Fixpoint substr_from (pos : nat) (s : string) : string :=
  match pos, s with
  | O, _ => s
  | S pos', EmptyString => EmptyString
  | S pos', String _ s' => substr_from pos' s'
  end.

(** [s.substr(pos, n)]; the length is clamped at the end of [s]. *)
Definition substr (pos n : nat) (s : string) : string :=
  substring pos n s.

(** Value of a run of decimal digits, most significant first. *)
Fixpoint digits_value (acc : Z) (s : string) : Z :=
  match s with
  | EmptyString => acc
  | String c s' => digits_value (10 * acc + digit_value c) s'
  end.

(** [operator<<] and [std::to_string] on an integer. *)
Definition to_string (z : Z) : string :=
  NilZero.string_of_int (Z.to_int z).

Definition LLONG_MIN : Z := - 2 ^ 63.
Definition LLONG_MAX : Z := 2 ^ 63 - 1.
Definition INT_MIN : Z := - 2 ^ 31.
Definition INT_MAX : Z := 2 ^ 31 - 1.

Definition in_int (z : Z) : Prop := INT_MIN <= z <= INT_MAX.
Definition in_int64 (z : Z) : Prop := LLONG_MIN <= z <= LLONG_MAX.

(** Conversion to [int] by two's-complement wrap-around. *)
Definition wrap_int (z : Z) : Z :=
  (z + 2 ^ 31) mod 2 ^ 32 - 2 ^ 31.

(** The optional sign in front of the digits: whether it is [-], and
    the text after it. *)
Definition strip_sign (s : string) : bool * string :=
  match s with
  | String c t =>
      if (c =? "-")%char then (true, t)
      else if (c =? "+")%char then (false, t)
      else (false, s)
  | EmptyString => (false, s)
  end.

(** [std::stoll(s)] in base 10: leading white space is skipped, one sign
    is accepted, then the longest run of digits is converted; what
    follows the digits is ignored. *)
Definition stoll (s : string) : result Z :=
  let s1 := substr_from (run_length isspace s) s in
  let '(negative, s2) := strip_sign s1 in
  let n := run_length isdigit s2 in
  match n with
  | O => Throw (std_invalid_argument "stoll")
  | S _ =>
      let magnitude := digits_value 0 (substr 0 n s2) in
      let v := if negative then - magnitude else magnitude in
      if (LLONG_MIN <=? v) && (v <=? LLONG_MAX)
      then Return v
      else Throw (std_out_of_range "stoll")
  end.

(* ===================================================================== *)
(** ** ArgReader *)
(* ===================================================================== *)

Record ArgReader : Type := mkArgReader {
  m_arg_str : string;
  m_pos : nat
}.

(** [ArgReader::ArgReader(std::string_view)] *)
Definition new_ArgReader (str : string) : ArgReader :=
  {| m_arg_str := str; m_pos := 0 |}.

Definition set_pos (r : ArgReader) (pos : nat) : ArgReader :=
  {| m_arg_str := m_arg_str r; m_pos := pos |}.

Definition rewind (r : ArgReader) : ArgReader := set_pos r 0.

Definition finished (r : ArgReader) : bool :=
  (String.length (m_arg_str r) <=? m_pos r)%nat.

Definition read_until (pred : ascii -> bool) (r : ArgReader)
  : ArgReader * string :=
  if finished r then (r, "")
  else
    let start_pos := m_pos r in
    let n := run_length (fun c => negb (pred c))
                        (substr_from start_pos (m_arg_str r)) in
    (set_pos r (start_pos + n), substr start_pos n (m_arg_str r)).

Definition read_while (pred : ascii -> bool) (r : ArgReader)
  : ArgReader * string :=
  if finished r then (r, "")
  else
    let start_pos := m_pos r in
    let n := run_length pred (substr_from start_pos (m_arg_str r)) in
    (set_pos r (start_pos + n), substr start_pos n (m_arg_str r)).

Definition skip_whitespace (r : ArgReader) : ArgReader :=
  fst (read_while isspace r).

Definition peek_remainder (r : ArgReader) : string :=
  substr_from (m_pos r) (m_arg_str r).

Definition read_word (r : ArgReader) : ArgReader * string :=
  read_until isspace (skip_whitespace r).

(** [try_read_int] catches [std::invalid_argument] only; any other
    exception of [std::stoll] leaves the function with the cursor where
    [read_word] put it. *)
Definition try_read_int (r : ArgReader) : ArgReader * result (option Z) :=
  let pos_before := m_pos r in
  let r1 := skip_whitespace r in
  let '(r2, int_str) := read_word r1 in
  match stoll int_str with
  | Return v => (r2, Return (Some v))
  | Throw (std_invalid_argument _) => (set_pos r2 pos_before, Return None)
  | Throw e => (r2, Throw e)
  end.

Definition read_int (r : ArgReader) : ArgReader * result Z :=
  let '(r', n) := try_read_int r in
  match n with
  | Return (Some v) => (r', Return v)
  | Return None => (r', Throw (InputError "Expected an integer number."))
  | Throw e => (r', Throw e)
  end.

(** What [main_loop] does with a line before it looks the command up:
    the first word is the command, the text after the separating white
    space is the context handed to the handler. *)
Definition split_command (line : string) : string * string :=
  let '(reader, command) := read_word (new_ArgReader line) in
  (command, peek_remainder (skip_whitespace reader)).

(* ===================================================================== *)
(** ** UCI options *)
(* ===================================================================== *)

(** [std::variant<std::monostate, std::int64_t, std::string, bool>] *)
Inductive OptionValue : Type :=
  | Monostate
  | Int64 (v : Z)
  | Str (s : string)
  | Bool (b : bool).

(** [variant::index()] *)
Definition index (v : OptionValue) : nat :=
  match v with
  | Monostate => 0
  | Int64 _ => 1
  | Str _ => 2
  | Bool _ => 3
  end.

Inductive OptionType : Type := Button | Spin | String_ | Check.

(** [static_cast<OptionType>(current.index())] *)
Definition OptionType_of_index (i : nat) : OptionType :=
  match i with
  | 0%nat => Button
  | 1%nat => Spin
  | 2%nat => String_
  | _ => Check
  end.

(** [std::get<T>(v)]: the alternative when [v] holds a [T], otherwise
    [std::bad_variant_access]. *)
Definition get_int64 (v : OptionValue) : result Z :=
  match v with Int64 z => Return z | _ => Throw std_bad_variant_access end.

Definition get_string (v : OptionValue) : result string :=
  match v with Str s => Return s | _ => Throw std_bad_variant_access end.

Definition get_bool (v : OptionValue) : result bool :=
  match v with Bool b => Return b | _ => Throw std_bad_variant_access end.

(** The callbacks a client passes at registration are opaque to the
    library. A callback is named by a number and is observed through the
    calls made to it. *)
Definition callback : Type := nat.

Inductive Call : Type :=
  | call_trigger (f : callback)
  | call_bool (f : callback) (b : bool)
  | call_int (f : callback) (v : Z)
  | call_string (f : callback) (s : string).

(** The four lambdas the [register_*_option] functions store as
    [Option::change_handler]. *)
Inductive change_handler_t : Type :=
  | button_lambda (trigger_handler : callback)
  | check_lambda (change_handler : callback)
  | spin_lambda (change_handler : callback)
  | string_lambda (change_handler : callback).

(** Running a stored lambda on a value: the call it makes to the client
    callback, or the exception of its [std::get]. The lambda of
    [register_check_option] reads the value with
    [std::get<std::int64_t>] and converts the integer to [bool]. *)
Definition invoke (h : change_handler_t) (v : OptionValue) : result Call :=
  match h with
  | button_lambda f => Return (call_trigger f)
  | check_lambda f =>
      match get_int64 v with
      | Return z => Return (call_bool f (negb (z =? 0)))
      | Throw e => Throw e
      end
  | spin_lambda f =>
      match get_int64 v with
      | Return z => Return (call_int f z)
      | Throw e => Throw e
      end
  | string_lambda f =>
      match get_string v with
      | Return s => Return (call_string f s)
      | Throw e => Throw e
      end
  end.

Record Option : Type := mkOption {
  current : OptionValue;
  change_handler : change_handler_t;
  default_value : OptionValue;
  min : Z;
  max : Z
}.

Definition type (opt : Option) : OptionType :=
  OptionType_of_index (index (current opt)).

(** The process-wide option table together with the calls made so far
    to client callbacks, oldest first. *)
Record World : Type := mkWorld {
  s_options : gmap string Option;
  calls : list Call
}.

Definition empty_world : World :=
  {| s_options := ∅; calls := [] |}.

Definition set_options (w : World) (m : gmap string Option) : World :=
  {| s_options := m; calls := calls w |}.

Definition get_option {T : Type} (get : OptionValue -> result T)
           (name : string) (w : World) : result T :=
  match s_options w !! name with
  | None => Throw (InputError ("Option " ++ name ++ " not found."))
  | Some opt =>
      match get (current opt) with
      | Return x => Return x
      | Throw _ => Throw (InputError "Invalid option type.")
      end
  end.

Definition get_string_option := get_option get_string.
Definition get_spin_option := get_option get_int64.
Definition get_check_option := get_option get_bool.

(** [set_option]: the world returned next to a [Throw] is the world at
    the throw. *)
Definition set_option (name : string) (value : OptionValue) (w : World)
  : World * result unit :=
  match s_options w !! name with
  | None => (w, Throw (std_out_of_range "map::at"))
  | Some opt =>
      if negb (index (current opt) =? index value)%nat then
        (w, Throw (std_invalid_argument
                     "Value type doesn't match the option's type."))
      else
        let range_check : result unit :=
          match OptionType_of_index (index (current opt)) with
          | Spin =>
              match get_int64 value with
              | Throw e => Throw e
              | Return value_as_int =>
                  if value_as_int >? max opt then
                    Throw (InputError ("Maximum value for option " ++ name
                                       ++ " is " ++ to_string (max opt) ++ "."))
                  else if value_as_int <? min opt then
                    Throw (InputError ("Minimum value for option " ++ name
                                       ++ " is " ++ to_string (min opt) ++ "."))
                  else Return tt
              end
          | _ => Return tt
          end in
        match range_check with
        | Throw e => (w, Throw e)
        | Return _ =>
            let opt' := {| current := value;
                           change_handler := change_handler opt;
                           default_value := default_value opt;
                           min := min opt;
                           max := max opt |} in
            let w' := set_options w (<[name := opt']> (s_options w)) in
            match invoke (change_handler opt) value with
            | Throw e => (w', Throw e)
            | Return c =>
                ({| s_options := s_options w'; calls := calls w' ++ [c] |},
                 Return tt)
            end
        end
  end.

Definition register_button_option (name : string) (trigger_handler : callback)
           (w : World) : World :=
  set_options w
    (<[name := {| current := Monostate;
                  change_handler := button_lambda trigger_handler;
                  default_value := Monostate;
                  min := 0;
                  max := 0 |}]> (s_options w)).

Definition register_check_option (name : string) (default : bool)
           (handler : callback) (w : World) : World :=
  set_options w
    (<[name := {| current := Bool default;
                  change_handler := check_lambda handler;
                  default_value := Bool default;
                  min := 0;
                  max := 0 |}]> (s_options w)).

Definition register_spin_option (name : string) (default lo hi : Z)
           (handler : callback) (w : World) : World :=
  set_options w
    (<[name := {| current := Int64 default;
                  change_handler := spin_lambda handler;
                  default_value := Int64 default;
                  min := lo;
                  max := hi |}]> (s_options w)).

Definition register_string_option (name : string) (default : string)
           (handler : callback) (w : World) : World :=
  set_options w
    (<[name := {| current := Str default;
                  change_handler := string_lambda handler;
                  default_value := Str default;
                  min := 0;
                  max := 0 |}]> (s_options w)).

(** The worlds a client can build: registrations and [set_option] calls
    in any order, starting from the empty table. *)
Inductive reachable : World -> Prop :=
  | reachable_empty : reachable empty_world
  | reachable_button name f w :
      reachable w -> reachable (register_button_option name f w)
  | reachable_check name d f w :
      reachable w -> reachable (register_check_option name d f w)
  | reachable_spin name d lo hi f w :
      reachable w -> reachable (register_spin_option name d lo hi f w)
  | reachable_string name d f w :
      reachable w -> reachable (register_string_option name d f w)
  | reachable_set name v w :
      reachable w -> reachable (fst (set_option name v w)).

Record OptionInfo : Type := mkOptionInfo {
  info_current_value : OptionValue;
  info_name : string;
  info_type : OptionType;
  info_default_value : OptionValue;
  info_min : OptionValue;
  info_max : OptionValue
}.

Definition make_OptionInfo (name : string) (opt : Option) : OptionInfo :=
  {| info_current_value := current opt;
     info_name := name;
     info_type := type opt;
     info_default_value := default_value opt;
     info_min := Int64 (min opt);
     info_max := Int64 (max opt) |}.

(** Iteration over a [std::map<std::string, _>] visits the keys in
    increasing order. *)
Definition key_le (a b : string * Option) : Prop :=
  String.leb (fst a) (fst b) = true.

#[local] Instance key_le_dec (a b : string * Option) : Decision (key_le a b).
Proof. unfold key_le. apply _. Defined.

Definition get_all_options (w : World) : list OptionInfo :=
  map (fun p => make_OptionInfo (fst p) (snd p))
      (merge_sort key_le (map_to_list (s_options w))).

Definition get_option_info (opt_name : string) (w : World)
  : result OptionInfo :=
  match s_options w !! opt_name with
  | None => Throw (std_out_of_range "map::at")
  | Some option => Return (make_OptionInfo opt_name option)
  end.

(* ===================================================================== *)
(** ** Command handlers *)
(* ===================================================================== *)

Definition newline : string := String "010"%char EmptyString.

Definition is_empty (s : string) : bool :=
  match s with EmptyString => true | _ => false end.

(** *** go *)

Record GoArgs : Type := mkGoArgs {
  depth : option Z;
  w_time : option Z;
  w_inc : option Z;
  b_time : option Z;
  b_inc : option Z;
  move_time : option Z;
  nodes : option Z;
  infinite : bool
}.

(** [GoArgs go_args {}] *)
Definition default_GoArgs : GoArgs :=
  {| depth := None; w_time := None; w_inc := None; b_time := None;
     b_inc := None; move_time := None; nodes := None; infinite := true |}.

Definition set_infinite (b : bool) (a : GoArgs) : GoArgs :=
  mkGoArgs (depth a) (w_time a) (w_inc a) (b_time a) (b_inc a)
           (move_time a) (nodes a) b.
Definition set_depth (v : Z) (a : GoArgs) : GoArgs :=
  mkGoArgs (Some (wrap_int v)) (w_time a) (w_inc a) (b_time a) (b_inc a)
           (move_time a) (nodes a) (infinite a).
Definition set_w_time (v : Z) (a : GoArgs) : GoArgs :=
  mkGoArgs (depth a) (Some v) (w_inc a) (b_time a) (b_inc a)
           (move_time a) (nodes a) (infinite a).
Definition set_w_inc (v : Z) (a : GoArgs) : GoArgs :=
  mkGoArgs (depth a) (w_time a) (Some v) (b_time a) (b_inc a)
           (move_time a) (nodes a) (infinite a).
Definition set_b_time (v : Z) (a : GoArgs) : GoArgs :=
  mkGoArgs (depth a) (w_time a) (w_inc a) (Some v) (b_inc a)
           (move_time a) (nodes a) (infinite a).
Definition set_b_inc (v : Z) (a : GoArgs) : GoArgs :=
  mkGoArgs (depth a) (w_time a) (w_inc a) (b_time a) (Some v)
           (move_time a) (nodes a) (infinite a).
Definition set_move_time (v : Z) (a : GoArgs) : GoArgs :=
  mkGoArgs (depth a) (w_time a) (w_inc a) (b_time a) (b_inc a)
           (Some v) (nodes a) (infinite a).
Definition set_nodes (v : Z) (a : GoArgs) : GoArgs :=
  mkGoArgs (depth a) (w_time a) (w_inc a) (b_time a) (b_inc a)
           (move_time a) (Some v) (infinite a).

(** The variables the [while] loop of the go handler works on. *)
Definition go_state : Type := (ArgReader * string * GoArgs)%type.

(** [go_args.field = reader.read_int();] followed by the last statement
    of the loop body, [word = reader.read_word();]. *)
Definition go_assign (assign : Z -> GoArgs -> GoArgs) (reader : ArgReader)
           (go_args : GoArgs) : loop_step go_state (result GoArgs) :=
  match read_int reader with
  | (_, Throw e) => Break (Throw e)
  | (reader', Return v) =>
      let '(reader'', word') := read_word reader' in
      Continue (reader'', word', assign v go_args)
  end.

(** One evaluation of the loop condition and body. The [continue] of the
    [infinite] branch goes back to the condition with all three
    variables as they are. *)
Definition go_step (st : go_state) : loop_step go_state (result GoArgs) :=
  let '(reader, word, go_args) := st in
  if is_empty word then Break (Return go_args)
  else if String.eqb word "infinite" then
    if negb (infinite go_args) then
      Break (Throw (InputError
                      "Unexpected infinite to go when limits were specified."))
    else Continue (reader, word, go_args)
  else
    let go_args := set_infinite false go_args in
    if String.eqb word "wtime" then go_assign set_w_time reader go_args
    else if String.eqb word "winc" then go_assign set_w_inc reader go_args
    else if String.eqb word "btime" then go_assign set_b_time reader go_args
    else if String.eqb word "binc" then go_assign set_b_inc reader go_args
    else if String.eqb word "nodes" then go_assign set_nodes reader go_args
    else if String.eqb word "depth" then go_assign set_depth reader go_args
    else if String.eqb word "movetime" then
      go_assign set_move_time reader go_args
    else Break (Throw (InputError ("Unexpected argument for go: " ++ word))).

(** The handler [register_go] installs, run on the argument text [ctx]:
    [Some (Return a)] when it reaches [handler(go_args)] with [a],
    [Some (Throw e)] when it throws, [None] when the loop has not ended
    within [budget] iterations. *)
Definition go_handler (budget : nat) (ctx : string)
  : option (result GoArgs) :=
  let '(reader, word) := read_word (new_ArgReader ctx) in
  while_loop go_step budget (reader, word, default_GoArgs).

(** *** position *)

(** A [std::string_view] together with the fate of its storage:
    [live text] views storage that holds [text] and exists as long as
    the view is used; [dangling text] views storage that held [text] and
    has been destroyed. What is read through a dangling view is
    undefined. *)
Inductive string_view : Type :=
  | live (text : string)
  | dangling (text : string).

(** The text read through a view, where reading it is defined. *)
Definition view_text (v : string_view) : option string :=
  match v with
  | live text => Some text
  | dangling _ => None
  end.

(** [fen] is a [std::string_view]; [moves] holds copies of the words. *)
Record PositionArgs : Type := mkPositionArgs {
  fen : string_view;
  moves : list string
}.

Definition startpos_fen : string :=
  "rnbqkbnr/pppppppp/8/8/8/8/PPPPPPPP/RNBQKBNR w KQkq - 0 1".

(** The loop of the [fen] branch over the reader and [fen_stream]. *)
Definition fen_step (st : ArgReader * string)
  : loop_step (ArgReader * string) (ArgReader * string) :=
  let '(reader, fen_stream) := st in
  if finished reader then Break (reader, fen_stream)
  else
    let reader := skip_whitespace reader in
    let remainder := peek_remainder reader in
    if (5 <=? String.length remainder)%nat
       && String.eqb (substr 0 5 remainder) "moves"
    then Break (reader, fen_stream)
    else
      let '(reader, word) := read_word reader in
      Continue (reader, fen_stream ++ word ++ " ").

(** The loop that collects the move tokens. *)
Definition moves_step (st : ArgReader * string * list string)
  : loop_step (ArgReader * string * list string) (list string) :=
  let '(reader, word, acc) := st in
  if is_empty word then Break acc
  else
    let '(reader', word') := read_word reader in
    Continue (reader', word', (acc ++ [word])%list).

(** The handler [register_position] installs. After [startpos],
    [args.fen] views a string literal. After [fen], [args.fen] is
    assigned from [fen_stream.str()], a temporary [std::string] that is
    destroyed at the end of the assignment: from then on, and so when
    [handler(args)] is reached, the view dangles. *)
Definition position_handler (budget : nat) (ctx : string)
  : option (result PositionArgs) :=
  let '(reader, word) := read_word (new_ArgReader ctx) in
  let first : option (result (ArgReader * string_view)) :=
    if String.eqb word "startpos" then
      Some (Return (reader, live startpos_fen))
    else if String.eqb word "fen" then
      match while_loop fen_step budget (reader, "") with
      | Some (reader', fen_stream) =>
          Some (Return (reader', dangling fen_stream))
      | None => None
      end
    else if is_empty word then
      Some (Throw (InputError
                     "Expected a position specifier (fen or startpos)"))
    else
      Some (Throw (InputError ("Unexpected argument to position: " ++ word)))
  in
  match first with
  | None => None
  | Some (Throw e) => Some (Throw e)
  | Some (Return (reader, fen_view)) =>
      let '(reader, word) := read_word reader in
      if is_empty word then
        Some (Return {| fen := fen_view; moves := [] |})
      else if negb (String.eqb word "moves") then
        Some (Throw (InputError
                       ("Unexpected argument to position: " ++ word)))
      else
        let '(reader, word) := read_word reader in
        match while_loop moves_step budget (reader, word, []) with
        | Some ms => Some (Return {| fen := fen_view; moves := ms |})
        | None => None
        end
  end.

(** *** uci *)

(** [operator<<(std::ostream&, const OptionType&)] *)
Definition print_OptionType (t : OptionType) : string :=
  match t with
  | Spin => "spin"
  | String_ => "string"
  | Check => "check"
  | _ => "unknown"
  end.

(** The text printed for one option, without its final newline. The
    [std::get] calls throw when a value does not hold the alternative of
    the kind. *)
Definition option_line (opt : OptionInfo) : result string :=
  let head :=
    "option " ++ info_name opt ++ " type "
    ++ print_OptionType (info_type opt) in
  match info_type opt with
  | Spin =>
      try! d <- get_int64 (info_default_value opt);
      try! lo <- get_int64 (info_min opt);
      try! hi <- get_int64 (info_max opt);
      Return (head ++ " default " ++ to_string d
              ++ " min " ++ to_string lo ++ " max " ++ to_string hi)
  | String_ =>
      try! d <- get_string (info_default_value opt);
      Return (head ++ " default " ++ d)
  | Check =>
      try! d <- get_bool (info_default_value opt);
      Return (head ++ " default " ++ (if d then "true" else "false"))
  | Button => Return head
  end.

(** The [for] loop over the options. *)
Fixpoint option_lines (options : list OptionInfo) : result (list string) :=
  match options with
  | [] => Return []
  | opt :: options' =>
      try! line <- option_line opt;
      try! lines <- option_lines options';
      Return (line :: lines)
  end.

(** The lines the handler installed by [register_uci] writes to the
    standard output, in order, when it runs to its end. *)
Definition uci_handler (engine_name author_name : string) (w : World)
  : result (list string) :=
  let id_name :=
    if negb (is_empty engine_name) then "id name " ++ engine_name
    else "id name Unnamed Engine" in
  let id_author :=
    if negb (is_empty author_name) then ["id author " ++ author_name]
    else [] in
  try! lines <- option_lines (get_all_options w);
  Return (id_name :: app id_author (app lines ["uciok"])).

(* ===================================================================== *)
(** ** Reporting *)
(* ===================================================================== *)

Module info.

Record Score : Type := mkScore {
  score : Z;
  allow_mate_scores : bool;
  mate_score : Z;
  mate_threshold : Z
}.

(** [Score::Score(int score)] *)
Definition Score_1 (score : Z) : Score :=
  {| score := score; allow_mate_scores := false;
     mate_score := 0; mate_threshold := 0 |}.

(** [Score::Score(int score, int mate, int max_mate_plies)] *)
Definition Score_3 (score mate max_mate_plies : Z) : Score :=
  {| score := score; allow_mate_scores := true;
     mate_score := wrap_int (Z.abs mate);
     mate_threshold := wrap_int (mate - max_mate_plies) |}.

(** [operator<<(std::ostream&, const Score&)]; [/] on [int] truncates
    toward zero. *)
Definition print_Score (s : Score) : string :=
  if negb (allow_mate_scores s)
     || (wrap_int (Z.abs (score s)) <? mate_threshold s)
  then "score cp " ++ to_string (score s)
  else
    let plies := wrap_int (mate_score s - wrap_int (Z.abs (score s))) in
    let moves := Z.quot (wrap_int (plies + 1)) 2 in
    "score mate "
    ++ to_string (if score s >? 0 then moves else wrap_int (- moves)).

End info.

(* ===================================================================== *)
(** ** Work thread *)
(* ===================================================================== *)

(** A task is opaque to the library; it is named by a number. *)
Definition Task : Type := nat.

(** The members of [WorkThread] and the place its thread is at in
    [run]: [task_to_run] is the local variable of [run], non-null exactly
    while the thread is inside the task body; [returned] says that [run]
    has returned. *)
Record WorkThread : Type := mkWorkThread {
  m_task : option Task;
  m_kill : bool;
  m_stop : bool;
  task_to_run : option Task;
  returned : bool
}.

(** [static std::unique_ptr<WorkThread> s_work_thread] *)
Definition Worker : Type := option WorkThread.

(** The members as their initialisers leave them. [m_thread] is the
    first member: the thread is started before the other members are
    initialised (see [make_WorkThread] and [init_members] below). *)
Definition new_WorkThread : WorkThread :=
  {| m_task := None; m_kill := false; m_stop := false;
     task_to_run := None; returned := false |}.

(** [running] reads [m_task] without taking [m_mutex]; the model reads
    it in one step. *)
Definition running (t : WorkThread) : bool :=
  match m_task t with Some _ => true | None => false end.

Definition should_stop (t : WorkThread) : bool := m_stop t.

Definition submit_task (new_task : Task) (t : WorkThread) : WorkThread :=
  {| m_task := Some new_task; m_kill := m_kill t; m_stop := false;
     task_to_run := task_to_run t; returned := returned t |}.

Definition stop_current_task (t : WorkThread) : WorkThread :=
  {| m_task := m_task t; m_kill := m_kill t; m_stop := true;
     task_to_run := task_to_run t; returned := returned t |}.

Definition work_thread_running (s : Worker) : bool :=
  match s with
  | None => false
  | Some t => running t
  end.

(** The critical section of [run]: enabled once the wait predicate
    [m_task || m_kill] holds and the thread is not inside a body. *)
Definition run_wakes (t : WorkThread) : option WorkThread :=
  if returned t then None
  else match task_to_run t with
       | Some _ => None
       | None =>
           if m_kill t then
             Some {| m_task := m_task t; m_kill := m_kill t;
                     m_stop := m_stop t; task_to_run := None;
                     returned := true |}
           else
             match m_task t with
             | None => None
             | Some task =>
                 Some {| m_task := None; m_kill := m_kill t;
                         m_stop := m_stop t; task_to_run := Some task;
                         returned := false |}
             end
       end.

(** The call [task_to_run(...)] of [run] returns. *)
Definition body_returns (t : WorkThread) : option WorkThread :=
  match task_to_run t with
  | None => None
  | Some _ =>
      Some {| m_task := m_task t; m_kill := m_kill t; m_stop := m_stop t;
              task_to_run := None; returned := returned t |}
  end.

(** The statements of the main thread that act on the work thread.
    Each of them is atomic with respect to the thread; the thread can
    take steps between any two of them. *)
Inductive statement : Type :=
  | make_WorkThread
      (* [if (s_work_thread) return;] of [awake_work_thread], then the
         start of [std::make_unique<WorkThread>()] up to the
         initialisation of [m_thread], which starts the thread *)
  | init_members
      (* the initialisers of [m_task], [m_mutex], [m_cond_var], [m_kill]
         and [m_stop], and the assignment to [s_work_thread] *)
  | store_stop
      (* [stop_work_thread()], and [stop_current_task()] in the
         destructor *)
  | call_submit_task (task : Task)
      (* [s_work_thread->submit_task(task)] *)
  | store_kill
      (* [m_kill = true] under the lock, and [notify_one()] *)
  | join_thread
      (* [m_thread.join()] *).

Definition awake_work_thread : list statement := [make_WorkThread].

Definition stop_work_thread : list statement := [store_stop].

Definition launch_work_thread (task : Task) : list statement :=
  (awake_work_thread ++ stop_work_thread ++ [call_submit_task task])%list.

(** [WorkThread::~WorkThread], run when the process exits and
    [s_work_thread] is not null. *)
Definition destroy_WorkThread : list statement :=
  [store_stop; store_kill; join_thread].

Definition set_kill (t : WorkThread) : WorkThread :=
  {| m_task := m_task t; m_kill := true; m_stop := m_stop t;
     task_to_run := task_to_run t; returned := returned t |}.

(** The effect of a statement on [s_work_thread] and its object, and the
    statements it puts in front of the rest of the call. [None]: the
    statement cannot be executed in this state. [join_thread] is in the
    step relation, with the end of the process. *)
Definition execute (st : statement) (s : Worker)
  : option (list statement * Worker) :=
  match st, s with
  | make_WorkThread, Some t => Some ([], Some t)
  | make_WorkThread, None => Some ([init_members], None)
  | init_members, _ => Some ([], Some new_WorkThread)
  | store_stop, Some t => Some ([], Some (stop_current_task t))
  | store_stop, None => Some ([], None)
  | call_submit_task task, Some t => Some ([], Some (submit_task task t))
  | call_submit_task _, None => None
  | store_kill, Some t => Some ([], Some (set_kill t))
  | store_kill, None => None
  | join_thread, _ => None
  end.

(** The main thread with the statements left of the call it is in, and
    [s_work_thread]; or the process after undefined behaviour; or the
    process after its exit. *)
Inductive System : Type :=
  | Live (main : list statement) (s : Worker)
  | Undefined_behaviour
  | Exited_process.

(** Interleaving of the main thread with the work thread. Outside a
    call the main thread can enter one of the public functions or leave
    the process; inside a call it executes the next statement. The work
    thread wakes up in [run] or comes back from a task body, at any
    time. A thread that runs [run] between the start of the thread and
    the initialisation of the other members uses [m_mutex],
    [m_cond_var], [m_task] and [m_kill] before they exist. *)
Inductive worker_step : System -> System -> Prop :=
  | step_awake s :
      worker_step (Live [] s) (Live awake_work_thread s)
  | step_stop s :
      worker_step (Live [] s) (Live stop_work_thread s)
  | step_launch task s :
      worker_step (Live [] s) (Live (launch_work_thread task) s)
  | step_exit_without_thread :
      worker_step (Live [] None) Exited_process
  | step_exit t :
      worker_step (Live [] (Some t)) (Live destroy_WorkThread (Some t))
  | step_statement st rest s more s' :
      execute st s = Some (more, s') ->
      worker_step (Live (st :: rest) s) (Live (more ++ rest)%list s')
  | step_join rest t :
      returned t = true ->
      worker_step (Live (join_thread :: rest) (Some t)) Exited_process
  | step_run_before_members rest s :
      worker_step (Live (init_members :: rest) s) Undefined_behaviour
  | step_run_wakes main t t' :
      run_wakes t = Some t' ->
      worker_step (Live main (Some t)) (Live main (Some t'))
  | step_body_returns main t t' :
      body_returns t = Some t' ->
      worker_step (Live main (Some t)) (Live main (Some t')).

Inductive system_reachable : System -> Prop :=
  | system_initial : system_reachable (Live [] None)
  | system_next a b :
      system_reachable a -> worker_step a b -> system_reachable b.

(** The states of [s_work_thread] the main thread can find between two
    calls, that is, when it can call [work_thread_running]. *)
Definition worker_reachable (s : Worker) : Prop :=
  system_reachable (Live [] s).

(** A task is installed, or the thread is inside a task body. *)
Definition task_installed_or_executing (s : Worker) : Prop :=
  match s with
  | None => False
  | Some t => is_Some (m_task t) \/ is_Some (task_to_run t)
  end.

(* ===================================================================== *)
(** ** Vocabulary of the statements *)
(* ===================================================================== *)

(** Every character of [s] satisfies [pred]. *)
Fixpoint all_of (pred : ascii -> bool) (s : string) : bool :=
  match s with
  | EmptyString => true
  | String c s' => pred c && all_of pred s'
  end.

(** [s] is empty or its first character does not satisfy [pred]. *)
Definition stops (pred : ascii -> bool) (s : string) : bool :=
  match s with
  | EmptyString => true
  | String c _ => negb (pred c)
  end.

Definition not_space (c : ascii) : bool := negb (isspace c).

(** The value [std::stoll] gives to the digits [digits] after the sign
    text [sign], which is empty, [+] or [-]. *)
Definition numeral_value (sign digits : string) : Z :=
  if String.eqb sign "-" then - digits_value 0 digits
  else digits_value 0 digits.

(** An option of the table is in the shape one of the registration
    functions gives it: the stored lambda is the one of the kind of the
    current value. *)
Definition well_formed (opt : Option) : Prop :=
  match change_handler opt, current opt, default_value opt with
  | button_lambda _, Monostate, Monostate => True
  | check_lambda _, Bool _, Bool _ => True
  | spin_lambda _, Int64 _, Int64 _ => True
  | string_lambda _, Str _, Str _ => True
  | _, _, _ => False
  end.

(** The call a client callback of an option receives for a value. *)
Definition expected_call (h : change_handler_t) (v : OptionValue)
  : option Call :=
  match h, v with
  | button_lambda f, Monostate => Some (call_trigger f)
  | check_lambda f, Bool b => Some (call_bool f b)
  | spin_lambda f, Int64 z => Some (call_int f z)
  | string_lambda f, Str s => Some (call_string f s)
  | _, _ => None
  end.

(** The score rule in the words of the specification, for a mate
    constant [m] and a threshold [t]. *)
Definition score_text_of_spec (s m t : Z) : string :=
  if Z.abs s <? m - t then "score cp " ++ to_string s
  else
    let plies := m - Z.abs s in
    let moves := Z.quot (plies + 1) 2 in
    "score mate " ++ to_string (if s >? 0 then moves else - moves).

(* ===================================================================== *)
(** ** The setoption handler *)
(* ===================================================================== *)

(** The handler [register_setoption] installs, run on the argument text
    [ctx]. The option name and the value are one word each. The world
    returned next to a [Throw] is the world at the throw. *)
Definition setoption_handler (ctx : string) (w : World)
  : World * result unit :=
  let reader := new_ArgReader ctx in
  let '(reader, keyword) := read_word reader in
  if negb (String.eqb keyword "name") then
    (w, Throw (InputError "Expected 'name'."))
  else
    let '(reader, name) := read_word reader in
    if is_empty name then (w, Throw (InputError "Expected an option name."))
    else
      match s_options w !! name with
      | None => (w, Throw (InputError ("No such option: " ++ name)))
      | Some option =>
          let '(reader, keyword) := read_word reader in
          if negb (String.eqb keyword "value") then
            (w, Throw (InputError "Expected 'value'."))
          else
            let '(reader, value) := read_word reader in
            match type option with
            | Button => set_option name Monostate w
            | Spin =>
                match stoll value with
                | Return v => set_option name (Int64 v) w
                | Throw e => (w, Throw e)
                end
            | String_ => set_option name (Str value) w
            | Check => set_option name (Bool (String.eqb value "true")) w
            end
      end.

(* ===================================================================== *)
(** ** Command table and main loop *)
(* ===================================================================== *)

(** The lambdas the [register_*] functions store in [s_cmd_handlers],
    and the handler a client passes to [register_custom_command]. *)
Inductive Handler : Type :=
  | quit_lambda
  | isready_lambda
  | ucinewgame_lambda (fn : callback)
  | stop_lambda (fn : callback)
  | go_lambda (handler : callback)
  | position_lambda (handler : callback)
  | uci_lambda (engine_name author_name : string)
  | setoption_lambda
  | client_handler (handler : callback).

(** The calls the command handlers and the main loop make to client
    callbacks. As for the callbacks of options, a client callback is
    observed through the calls made to it and is taken to return. *)
Inductive ClientCall : Type :=
  | called (fn : callback)
  | called_go (handler : callback) (args : GoArgs)
  | called_position (handler : callback) (args : PositionArgs)
  | called_command (handler : callback) (ctx : string)
  | called_error_handler (handler : callback) (e : exception).

(** What [main_loop] and [default_error_handler] write to the standard
    error: [Unknown command.], [Error: ] followed by the text of an
    [InputError], and [Fatal:] followed by the text of an exception. *)
Inductive ErrOutput : Type :=
  | Unknown_command
  | Error_ (what : string)
  | Fatal (e : exception).

(** The state [main_loop] works on: the option table with the calls to
    option callbacks, the command table, the error handler ([None] is
    [default_error_handler]), the calls to the other client callbacks,
    and what has been written to the two output streams. *)
Record Process : Type := mkProcess {
  options : World;
  s_cmd_handlers : gmap string Handler;
  s_err_handler : option callback;
  client_calls : list ClientCall;
  cout : list string;
  cerr : list ErrOutput
}.

Definition new_Process : Process :=
  {| options := empty_world; s_cmd_handlers := ∅; s_err_handler := None;
     client_calls := []; cout := []; cerr := [] |}.

Definition set_world (w : World) (p : Process) : Process :=
  mkProcess w (s_cmd_handlers p) (s_err_handler p) (client_calls p)
            (cout p) (cerr p).

Definition log_call (c : ClientCall) (p : Process) : Process :=
  mkProcess (options p) (s_cmd_handlers p) (s_err_handler p)
            (client_calls p ++ [c]) (cout p) (cerr p).

Definition print_out (lines : list string) (p : Process) : Process :=
  mkProcess (options p) (s_cmd_handlers p) (s_err_handler p)
            (client_calls p) (cout p ++ lines) (cerr p).

Definition print_err (o : ErrOutput) (p : Process) : Process :=
  mkProcess (options p) (s_cmd_handlers p) (s_err_handler p)
            (client_calls p) (cout p) (cerr p ++ [o]).

Definition set_error_handler (handler : callback) (p : Process) : Process :=
  mkProcess (options p) (s_cmd_handlers p) (Some handler) (client_calls p)
            (cout p) (cerr p).

Definition register_custom_command (command : string) (handler : Handler)
           (p : Process) : Process :=
  mkProcess (options p) (<[command := handler]> (s_cmd_handlers p))
            (s_err_handler p) (client_calls p) (cout p) (cerr p).

Definition register_quit : Process -> Process :=
  register_custom_command "quit" quit_lambda.

Definition register_isready : Process -> Process :=
  register_custom_command "isready" isready_lambda.

Definition register_ucinewgame (fn : callback) : Process -> Process :=
  register_custom_command "ucinewgame" (ucinewgame_lambda fn).

Definition register_stop (fn : callback) : Process -> Process :=
  register_custom_command "stop" (stop_lambda fn).

Definition register_go (handler : callback) : Process -> Process :=
  register_custom_command "go" (go_lambda handler).

Definition register_position (handler : callback) : Process -> Process :=
  register_custom_command "position" (position_lambda handler).

Definition register_uci (engine_name author_name : string)
  : Process -> Process :=
  register_custom_command "uci" (uci_lambda engine_name author_name).

Definition register_setoption : Process -> Process :=
  register_custom_command "setoption" setoption_lambda.

(** How a call of a handler ends: it returns, it throws, it ends the
    process through [std::exit], or it is still in one of its loops when
    the budget of iterations is spent. *)
Inductive handler_end : Type :=
  | Returned (p : Process)
  | Thrown (p : Process) (e : exception)
  | Exited (status : Z) (p : Process)
  | StillRunning.

(** A stored handler run on the context [ctx]. The uci handler writes
    its lines when it runs to its end; what it has written before a
    [std::get] of it throws is not recorded. *)
Definition run_handler (budget : nat) (h : Handler) (ctx : string)
           (p : Process) : handler_end :=
  match h with
  | quit_lambda => Exited 0 p
  | isready_lambda => Returned (print_out ["readyok"] p)
  | ucinewgame_lambda fn => Returned (log_call (called fn) p)
  | stop_lambda fn => Returned (log_call (called fn) p)
  | go_lambda handler =>
      match go_handler budget ctx with
      | None => StillRunning
      | Some (Throw e) => Thrown p e
      | Some (Return go_args) => Returned (log_call (called_go handler go_args) p)
      end
  | position_lambda handler =>
      match position_handler budget ctx with
      | None => StillRunning
      | Some (Throw e) => Thrown p e
      | Some (Return args) =>
          Returned (log_call (called_position handler args) p)
      end
  | uci_lambda engine_name author_name =>
      match uci_handler engine_name author_name (options p) with
      | Return lines => Returned (print_out lines p)
      | Throw e => Thrown p e
      end
  | setoption_lambda =>
      match setoption_handler ctx (options p) with
      | (w, Return _) => Returned (set_world w p)
      | (w, Throw e) => Thrown (set_world w p) e
      end
  | client_handler handler => Returned (log_call (called_command handler ctx) p)
  end.

(** Where [main_loop] is after a line: about to read the next line, or
    gone with the process ([std::exit] in the quit handler,
    [std::terminate] in [default_error_handler]), or inside a handler
    that has not ended within the budget. *)
Inductive loop_state : Type :=
  | Reading (p : Process)
  | ProcessExited (status : Z) (p : Process)
  | ProcessTerminated (p : Process)
  | InHandler.

(** The body of the [while] loop of [main_loop] on one line. *)
Definition process_line (budget : nat) (line : string) (p : Process)
  : loop_state :=
  let '(command, ctx) := split_command line in
  match s_cmd_handlers p !! command with
  | None => Reading (print_err Unknown_command p)
  | Some handler =>
      match run_handler budget handler ctx p with
      | Returned p' => Reading p'
      | Thrown p' (InputError what) => Reading (print_err (Error_ what) p')
      | Thrown p' e =>
          match s_err_handler p' with
          | None => ProcessTerminated (print_err (Fatal e) p')
          | Some f => Reading (log_call (called_error_handler f e) p')
          end
      | Exited status p' => ProcessExited status p'
      | StillRunning => InHandler
      end
  end.

(** [main_loop] on the lines the standard input delivers before its
    end. [Reading p] as the result says that the loop has met the end of
    the input in state [p] and has returned. *)
Fixpoint main_loop (budget : nat) (lines : list string) (p : Process)
  : loop_state :=
  match lines with
  | [] => Reading p
  | line :: lines' =>
      match process_line budget line p with
      | Reading p' => main_loop budget lines' p'
      | gone => gone
      end
  end.

(* ===================================================================== *)
(** ** Reporting, continued *)
(* ===================================================================== *)

Module report.

(** The helpers of namespace [info] that [report_info] takes. The moves
    of [PV] and [CurrMove] are given as the texts their [operator<<]
    prints. *)
Inductive fragment : Type :=
  | String (str : string)
  | Depth (depth : Z)
  | SelDepth (sel_depth : Z)
  | HashFull (hash_full : Z)
  | TbHits (tb_hits : Z)
  | Multipv (multipv : Z)
  | Nodes (nodes : Z)
  | Nps (nps : Z)
  | Time (time : Z)
  | CurrMoveNumber (curr_move_number : Z)
  | Upperbound
  | Lowerbound
  | Score (s : info.Score)
  | PV (moves : list string)
  | CurrMove (move : string)
  | Conditional (condition : bool) (info : fragment).

(** [operator<<] on each helper. *)
Fixpoint print (f : fragment) : string :=
  match f with
  | String str => "string " ++ str
  | Depth depth => "depth " ++ to_string depth
  | SelDepth sel_depth => "seldepth " ++ to_string sel_depth
  | HashFull hash_full => "hashfull " ++ to_string hash_full
  | TbHits tb_hits => "tbhits " ++ to_string tb_hits
  | Multipv multipv => "multipv " ++ to_string multipv
  | Nodes nodes => "nodes " ++ to_string nodes
  | Nps nps => "nps " ++ to_string nps
  | Time time => "time " ++ to_string time
  | CurrMoveNumber n => "currmovenumber " ++ to_string n
  | Upperbound => "upperbound"
  | Lowerbound => "lowerbound"
  | Score s => info.print_Score s
  | PV moves => fold_left (fun line move => line ++ " " ++ move) moves "pv"
  | CurrMove move => "currmove " ++ move
  | Conditional condition info => if condition then print info else ""
  end.

(** [report_info(args...)]: the line written, without its newline. *)
Definition report_info (args : list fragment) : string :=
  fold_left (fun line arg => line ++ " " ++ print arg) args "info".

End report.

(* ===================================================================== *)
(** ** More vocabulary *)
(* ===================================================================== *)

(** The cursor is inside the text or at its end. *)
Definition in_bounds (r : ArgReader) : Prop :=
  (m_pos r <= String.length (m_arg_str r))%nat.

(** Going from [r] to [r'] consumes exactly [w], a longest run of
    characters satisfying [pred]: [w] is what [r] had in front of the
    cursor, and what [r'] has in front of it does not continue the
    run. *)
Definition consumes (pred : ascii -> bool) (r r' : ArgReader) (w : string)
  : Prop :=
  m_arg_str r' = m_arg_str r
  /\ m_pos r' = (m_pos r + String.length w)%nat
  /\ peek_remainder r = w ++ peek_remainder r'
  /\ all_of pred w = true
  /\ stops pred (peek_remainder r') = true.

(** Characters left in front of the cursor. *)
Definition remaining (r : ArgReader) : nat :=
  (String.length (m_arg_str r) - m_pos r)%nat.

(** A bound on the iterations left for a loop over words that holds the
    word read last and the reader behind it. *)
Definition words_left (reader : ArgReader) (word : string) : nat :=
  (remaining reader + if is_empty word then 0 else 1)%nat.

(** What can be left of a call of the main thread into the work thread:
    of [awake_work_thread], [stop_work_thread], [launch_work_thread] or
    the destructor. *)
Definition call_remainder (main : list statement) : bool :=
  match main with
  | [] | [make_WorkThread] | [init_members] | [store_stop]
  | [make_WorkThread; store_stop; call_submit_task _]
  | [init_members; store_stop; call_submit_task _]
  | [store_stop; call_submit_task _]
  | [call_submit_task _]
  | [store_stop; store_kill; join_thread]
  | [store_kill; join_thread]
  | [join_thread] => true
  | _ => false
  end.

(** What holds of the work thread as long as the process is defined and
    alive: [run] returns only when asked to and outside a task body; the
    thread is asked to leave exactly while the destructor waits for it;
    the destructor has raised the stop flag by then. *)
Definition system_invariant (sys : System) : Prop :=
  match sys with
  | Live main None => call_remainder main = true
  | Live main (Some t) =>
      call_remainder main = true
      /\ (returned t = true -> m_kill t = true /\ task_to_run t = None)
      /\ (m_kill t = true <-> main = [join_thread])
      /\ (main = [store_kill; join_thread] -> m_stop t = true)
      /\ (m_kill t = true -> m_stop t = true)
  | Undefined_behaviour => True
  | Exited_process => True
  end.

(* ===================================================================== *)
(** * Properties *)
(* ===================================================================== *)

(** ** Loops *)

Lemma while_loop_stuck {S R : Type} (step : S -> loop_step S R) (s : S) :
  step s = Continue s -> forall budget, while_loop step budget s = None.
Proof.
  intros Hfix budget.
  induction budget as [|budget IH]; simpl.
  - reflexivity.
  - rewrite Hfix. exact IH.
Qed.

(** ** Texts *)

Lemma append_empty_r (s : string) : s ++ "" = s.
Proof. induction s as [|c s IH]; simpl; [|rewrite IH]; reflexivity. Qed.

Lemma append_assoc (a b c : string) : (a ++ b) ++ c = a ++ b ++ c.
Proof. induction a as [|x a IH]; simpl; [|rewrite IH]; reflexivity. Qed.

Lemma length_append (a b : string) :
  String.length (a ++ b) = (String.length a + String.length b)%nat.
Proof. induction a as [|x a IH]; simpl; [|rewrite IH]; reflexivity. Qed.

Lemma run_length_append pred a b :
  all_of pred a = true -> stops pred b = true ->
  run_length pred (a ++ b) = String.length a.
Proof.
  induction a as [|x a IH]; simpl; intros Ha Hb.
  - destruct b as [|y b]; simpl in *; [reflexivity|].
    destruct (pred y); [discriminate|reflexivity].
  - apply andb_true_iff in Ha as [Hx Ha]. rewrite Hx, IH; auto.
Qed.

Lemma substr_from_append a b : substr_from (String.length a) (a ++ b) = b.
Proof. induction a as [|x a IH]; simpl; [destruct b|]; auto. Qed.

Lemma substr_from_add n k s :
  substr_from (n + k) s = substr_from k (substr_from n s).
Proof.
  revert s. induction n as [|n IH]; intros s; simpl.
  - reflexivity.
  - destruct s as [|c s]; [destruct k; reflexivity|apply IH].
Qed.

Lemma substr_from_nonempty n s :
  substr_from n s <> "" -> (n < String.length s)%nat.
Proof.
  revert s. induction n as [|n IH]; intros s H; simpl in *.
  - destruct s; [contradiction|simpl; lia].
  - destruct s as [|c s]; [contradiction|]. simpl. apply IH in H. lia.
Qed.

Lemma substr_from_past_end n s :
  (String.length s <= n)%nat -> substr_from n s = "".
Proof.
  revert s. induction n as [|n IH]; intros s H.
  - destruct s; [reflexivity|simpl in H; lia].
  - destruct s as [|c s]; [reflexivity|]. simpl in *. apply IH. lia.
Qed.

Lemma substr_via_substr_from pos n s :
  substr pos n s = substr 0 n (substr_from pos s).
Proof.
  unfold substr. revert s. induction pos as [|pos IH]; intros s.
  - reflexivity.
  - destruct s as [|c s]; simpl.
    + destruct n; reflexivity.
    + apply IH.
Qed.

Lemma substr_prefix a b : substr 0 (String.length a) (a ++ b) = a.
Proof.
  unfold substr. induction a as [|x a IH]; simpl.
  - destruct b; reflexivity.
  - rewrite IH. reflexivity.
Qed.

Lemma append_is_empty a b : a ++ b = "" -> a = "" /\ b = "".
Proof. destruct a; simpl; [auto|discriminate]. Qed.

Lemma set_pos_same r : set_pos r (m_pos r) = r.
Proof. destruct r. reflexivity. Qed.

(** ** Option registry *)

Lemma index_eq_shape (u v : OptionValue) :
  index u = index v ->
  match u, v with
  | Monostate, Monostate | Int64 _, Int64 _
  | Str _, Str _ | Bool _, Bool _ => True
  | _, _ => False
  end.
Proof. destruct u, v; simpl; intros H; try exact I; discriminate. Qed.

(** What [set_option] leaves in the table is either the table or the
    table with the current value of [name] replaced by a value of the
    same alternative. *)
Lemma set_option_table name v w :
  s_options (fst (set_option name v w)) = s_options w
  \/ exists opt,
       s_options w !! name = Some opt
       /\ index (current opt) = index v
       /\ s_options (fst (set_option name v w))
          = <[name := {| current := v;
                         change_handler := change_handler opt;
                         default_value := default_value opt;
                         min := min opt;
                         max := max opt |}]> (s_options w).
Proof.
  unfold set_option.
  destruct (s_options w !! name) as [opt|] eqn:Hl; [|left; reflexivity].
  destruct (Nat.eqb_spec (index (current opt)) (index v)) as [Hi|Hi];
    simpl; [|left; reflexivity].
  match goal with
  | |- context [match ?rc with Return _ => _ | Throw _ => _ end] =>
      destruct rc as [[]|e]
  end; [|left; reflexivity].
  right. exists opt. split; [reflexivity|]. split; [exact Hi|].
  destruct (invoke (change_handler opt) v); reflexivity.
Qed.

Lemma reachable_well_formed w :
  reachable w ->
  forall name opt, s_options w !! name = Some opt -> well_formed opt.
Proof.
  induction 1 as [|n f w Hw IH|n d f w Hw IH|n d lo hi f w Hw IH
                  |n d f w Hw IH|n v w Hw IH]; intros name opt Hl.
  - simpl in Hl. rewrite lookup_empty in Hl. discriminate.
  - simpl in Hl. destruct (decide (n = name)) as [->|Hne].
    + rewrite lookup_insert_eq in Hl. inversion Hl. exact I.
    + rewrite lookup_insert_ne in Hl by exact Hne. eauto.
  - simpl in Hl. destruct (decide (n = name)) as [->|Hne].
    + rewrite lookup_insert_eq in Hl. inversion Hl. exact I.
    + rewrite lookup_insert_ne in Hl by exact Hne. eauto.
  - simpl in Hl. destruct (decide (n = name)) as [->|Hne].
    + rewrite lookup_insert_eq in Hl. inversion Hl. exact I.
    + rewrite lookup_insert_ne in Hl by exact Hne. eauto.
  - simpl in Hl. destruct (decide (n = name)) as [->|Hne].
    + rewrite lookup_insert_eq in Hl. inversion Hl. exact I.
    + rewrite lookup_insert_ne in Hl by exact Hne. eauto.
  - destruct (set_option_table n v w) as [Heq|(o & Ho & Hi & Heq)];
      rewrite Heq in Hl; [eauto|].
    destruct (decide (n = name)) as [->|Hne].
    + rewrite lookup_insert_eq in Hl. inversion Hl; subst opt.
      specialize (IH _ _ Ho). apply index_eq_shape in Hi.
      unfold well_formed in *. simpl.
      destruct (change_handler o), (current o), (default_value o), v;
        try exact I; try contradiction.
    + rewrite lookup_insert_ne in Hl by exact Hne. eauto.
Qed.

Lemma spin_option_shape opt :
  well_formed opt -> type opt = Spin ->
  exists c f, current opt = Int64 c /\ change_handler opt = spin_lambda f.
Proof.
  unfold well_formed, type. intros Hwf Ht.
  destruct (change_handler opt) as [f|f|f|f], (current opt) as [|c|s|b],
    (default_value opt); try contradiction; try discriminate.
  exists c, f. split; reflexivity.
Qed.

(** [set_option] on a spin option, by the position of the value with
    respect to the bounds. *)
Lemma set_spin_option_cases w name opt v :
  well_formed opt -> s_options w !! name = Some opt -> type opt = Spin ->
  snd (set_option name (Int64 v) w)
  = if v >? max opt then
      Throw (InputError ("Maximum value for option " ++ name ++ " is "
                         ++ to_string (max opt) ++ "."))
    else if v <? min opt then
      Throw (InputError ("Minimum value for option " ++ name ++ " is "
                         ++ to_string (min opt) ++ "."))
    else Return tt.
Proof.
  intros Hwf Hl Ht.
  destruct (spin_option_shape opt Hwf Ht) as (c & f & Hc & Hh).
  unfold set_option. rewrite Hl, Hc, Hh. simpl.
  destruct (v >? max opt); [reflexivity|].
  destruct (v <? min opt); reflexivity.
Qed.

(** The kinds other than check: a value of the declared kind (within the
    bounds, for a spin option) replaces the current value, the client
    callback receives one call with that value, and the getter of the
    kind reads the value back. *)
Lemma set_option_succeeds w name opt v :
  well_formed opt -> s_options w !! name = Some opt ->
  index v = index (current opt) -> type opt <> Check ->
  (forall z, v = Int64 z -> min opt <= z <= max opt) ->
  exists c w',
    expected_call (change_handler opt) v = Some c
    /\ set_option name v w = (w', Return tt)
    /\ calls w' = (calls w ++ [c])%list
    /\ (current <$> s_options w' !! name) = Some v.
Proof.
  intros Hwf Hl Hi Ht Hr. unfold set_option. rewrite Hl.
  symmetry in Hi. apply index_eq_shape in Hi as Hs.
  rewrite <- Hi, Nat.eqb_refl. simpl.
  unfold well_formed, type in *.
  destruct (change_handler opt) as [f|f|f|f], (current opt) as [|c|s|b],
    (default_value opt);
    try contradiction; destruct v as [|z|s'|b']; try contradiction; simpl.
  - eexists _, _. repeat split. simpl. rewrite lookup_insert_eq. reflexivity.
  - specialize (Hr z eq_refl).
    destruct (Z.gtb_spec z (max opt)); [lia|].
    destruct (Z.ltb_spec z (min opt)); [lia|].
    eexists _, _. repeat split. simpl. rewrite lookup_insert_eq. reflexivity.
  - eexists _, _. repeat split. simpl. rewrite lookup_insert_eq. reflexivity.
Qed.

(** Every well-formed check option behaves the same way under
    [set_option] with a [bool]: the value is written, the stored lambda
    throws, and no call reaches the client callback. *)
Lemma set_option_check_cases w name opt b :
  well_formed opt -> s_options w !! name = Some opt -> type opt = Check ->
  snd (set_option name (Bool b) w) = Throw std_bad_variant_access
  /\ calls (fst (set_option name (Bool b) w)) = calls w
  /\ get_check_option name (fst (set_option name (Bool b) w)) = Return b.
Proof.
  unfold well_formed, type. intros Hwf Hl Ht.
  unfold set_option, get_check_option, get_option. rewrite Hl.
  destruct (change_handler opt) as [f|f|f|f], (current opt) as [|c|s|b0],
    (default_value opt); try contradiction; try discriminate.
  simpl. rewrite lookup_insert_eq. repeat split.
Qed.

(** C1, at a check option. The lambda stored by [register_check_option]
    reads the new value as a [std::int64_t], so [set_option] on a check
    option with a [bool] replaces the current value and then leaves with
    [std::bad_variant_access]; the client callback receives no call. *)
Theorem set_option_check_throws :
  let w := register_check_option "Ponder" false 0%nat empty_world in
  let after := set_option "Ponder" (Bool true) w in
  snd after = Throw std_bad_variant_access
  /\ calls (fst after) = []
  /\ get_check_option "Ponder" (fst after) = Return true.
Proof. vm_compute. repeat split. Qed.

(** C6: on a registered spin option, [set_option] with an integer [v]
    returns if and only if [min <= v <= max]; with [min <= max] both
    bounds are accepted; a value above [max] is refused with the
    [InputError] that names the maximum, a value below [min] (and not
    above [max]) with the [InputError] that names the minimum. *)
Theorem set_spin_option_in_range w name opt v :
  reachable w -> s_options w !! name = Some opt -> type opt = Spin ->
  (snd (set_option name (Int64 v) w) = Return tt
   <-> min opt <= v <= max opt)
  /\ (min opt <= max opt ->
      snd (set_option name (Int64 (min opt)) w) = Return tt
      /\ snd (set_option name (Int64 (max opt)) w) = Return tt)
  /\ (max opt < v ->
      snd (set_option name (Int64 v) w)
      = Throw (InputError ("Maximum value for option " ++ name ++ " is "
                           ++ to_string (max opt) ++ ".")))
  /\ (v <= max opt -> v < min opt ->
      snd (set_option name (Int64 v) w)
      = Throw (InputError ("Minimum value for option " ++ name ++ " is "
                           ++ to_string (min opt) ++ "."))).
Proof.
  intros Hw Hl Ht.
  pose proof (reachable_well_formed w Hw name opt Hl) as Hwf.
  pose proof (fun z => set_spin_option_cases w name opt z Hwf Hl Ht) as Hc.
  split; [|split; [|split]].
  - rewrite Hc.
    destruct (Z.gtb_spec v (max opt)), (Z.ltb_spec v (min opt));
      split; intros Hres; try discriminate; try reflexivity; lia.
  - intros Hle. rewrite !Hc.
    destruct (Z.gtb_spec (min opt) (max opt)); [lia|].
    rewrite Z.ltb_irrefl, Z.gtb_ltb, Z.ltb_irrefl.
    destruct (Z.ltb_spec (max opt) (min opt)); [lia|].
    split; reflexivity.
  - intros Hgt. rewrite Hc.
    destruct (Z.gtb_spec v (max opt)); [reflexivity|lia].
  - intros Hle Hlt. rewrite Hc.
    destruct (Z.gtb_spec v (max opt)); [lia|].
    destruct (Z.ltb_spec v (min opt)); [reflexivity|lia].
Qed.

Lemma set_spin_option_in_range_witness :
  let w := register_spin_option "Hash" 32 1 1048576 0%nat empty_world in
  let opt := {| current := Int64 32; change_handler := spin_lambda 0%nat;
                default_value := Int64 32; min := 1; max := 1048576 |} in
  (snd (set_option "Hash" (Int64 64) w) = Return tt <-> 1 <= 64 <= 1048576)
  /\ snd (set_option "Hash" (Int64 1) w) = Return tt
  /\ snd (set_option "Hash" (Int64 1048576) w) = Return tt.
Proof.
  intros w opt.
  assert (Hw : reachable w) by (apply reachable_spin, reachable_empty).
  assert (Hl : s_options w !! "Hash" = Some opt) by reflexivity.
  assert (Ht : type opt = Spin) by reflexivity.
  destruct (set_spin_option_in_range w "Hash" opt 64 Hw Hl Ht)
    as (Hiff & Hbounds & _).
  split; [exact Hiff|].
  apply Hbounds. simpl. lia.
Defined.

(** C7: a value whose alternative is not the one of the option is
    refused with [std::invalid_argument] before anything is written: the
    table, hence the current value, and the list of callback calls are
    as before. *)
Theorem set_option_type_mismatch w name opt v :
  s_options w !! name = Some opt ->
  index v <> index (current opt) ->
  set_option name v w
  = (w, Throw (std_invalid_argument
                 "Value type doesn't match the option's type.")).
Proof.
  intros Hl Hi. unfold set_option. rewrite Hl.
  destruct (Nat.eqb_spec (index (current opt)) (index v)) as [He|He].
  - congruence.
  - reflexivity.
Qed.

Lemma set_option_type_mismatch_witness :
  let w := register_spin_option "Hash" 32 1 1048576 0%nat empty_world in
  set_option "Hash" (Bool true) w
  = (w, Throw (std_invalid_argument
                 "Value type doesn't match the option's type.")).
Proof.
  intros w.
  apply (set_option_type_mismatch w "Hash"
           {| current := Int64 32; change_handler := spin_lambda 0%nat;
              default_value := Int64 32; min := 1; max := 1048576 |}).
  - reflexivity.
  - simpl. lia.
Defined.

(** ** The uci handler *)

Lemma print_OptionType_names :
  print_OptionType Spin = "spin"
  /\ print_OptionType String_ = "string"
  /\ print_OptionType Check = "check"
  /\ print_OptionType Button = "unknown".
Proof. repeat split. Qed.

Lemma get_all_options_complete w name opt :
  s_options w !! name = Some opt ->
  In (make_OptionInfo name opt) (get_all_options w).
Proof.
  intros Hl. unfold get_all_options.
  apply (in_map (fun p => make_OptionInfo (fst p) (snd p)) _ (name, opt)).
  apply list_elem_of_In.
  rewrite merge_sort_Permutation.
  apply elem_of_map_to_list. exact Hl.
Qed.

Lemma option_line_well_formed name opt :
  well_formed opt ->
  exists rest,
    option_line (make_OptionInfo name opt)
    = Return ("option " ++ name ++ " type "
              ++ print_OptionType (type opt) ++ rest).
Proof.
  unfold well_formed, option_line, make_OptionInfo, type. simpl.
  destruct (change_handler opt), (current opt), (default_value opt);
    try contradiction; intros _; simpl.
  - exists "". reflexivity.
  - eexists. rewrite !append_assoc. reflexivity.
  - eexists. rewrite !append_assoc. reflexivity.
  - eexists. rewrite !append_assoc. reflexivity.
Qed.

Lemma option_lines_complete options :
  (forall opt, In opt options -> returns (option_line opt)) ->
  exists lines,
    option_lines options = Return lines
    /\ forall opt line,
         In opt options -> option_line opt = Return line -> In line lines.
Proof.
  induction options as [|o options IH]; intros Hall.
  - exists []. split; [reflexivity|]. intros opt line [].
  - destruct (Hall o (or_introl eq_refl)) as [l Hl].
    destruct IH as (ls & Hls & Hin).
    { intros opt Hopt. apply Hall. right. exact Hopt. }
    exists (l :: ls). split.
    + simpl. rewrite Hl, Hls. reflexivity.
    + intros opt line [->|Hopt] Hline.
      * left. congruence.
      * right. eauto.
Qed.

(** On a table built by registrations and [set_option] calls, the
    handler runs to its end, and every option of the table has its line
    in the output; the line starts with the name and with what
    [print_OptionType] gives for the kind. *)
Lemma uci_handler_option_lines engine_name author_name w name opt :
  reachable w -> s_options w !! name = Some opt ->
  exists lines rest,
    uci_handler engine_name author_name w = Return lines
    /\ In ("option " ++ name ++ " type " ++ print_OptionType (type opt)
           ++ rest) lines.
Proof.
  intros Hw Hl.
  destruct (option_lines_complete (get_all_options w)) as (ls & Hls & Hin).
  { intros o Ho. unfold get_all_options in Ho.
    apply in_map_iff in Ho as ([n o'] & <- & Hno).
    apply list_elem_of_In in Hno.
    rewrite merge_sort_Permutation in Hno.
    apply elem_of_map_to_list in Hno.
    destruct (option_line_well_formed n o') as [rest Hrest].
    - exact (reachable_well_formed w Hw n o' Hno).
    - eexists. exact Hrest. }
  destruct (option_line_well_formed name opt) as [rest Hrest].
  { exact (reachable_well_formed w Hw name opt Hl). }
  unfold uci_handler. rewrite Hls. simpl.
  eexists _, rest. split; [reflexivity|].
  right. apply in_or_app. right. apply in_or_app. left.
  apply (Hin (make_OptionInfo name opt)); [|exact Hrest].
  apply get_all_options_complete. exact Hl.
Qed.

(** C2, at a button option: [operator<<] on [OptionType] has no case for
    [Button], so the line of a button option reads [type unknown]. *)
Theorem uci_handler_button_line :
  uci_handler "My Engine Name" "My Name"
              (register_button_option "Clear Hash" 0%nat empty_world)
  = Return ["id name My Engine Name"; "id author My Name";
            "option Clear Hash type unknown"; "uciok"].
Proof. vm_compute. reflexivity. Qed.

(** ** The go handler *)

Example go_wtime_winc :
  go_handler 3 "wtime 60000 winc 1000"
  = Some (Return (set_w_inc 1000 (set_w_time 60000
                    (set_infinite false default_GoArgs)))).
Proof. vm_compute. reflexivity. Qed.

Example go_no_argument : go_handler 1 "" = Some (Return default_GoArgs).
Proof. vm_compute. reflexivity. Qed.

(** On the word [infinite] with the flag still set, an evaluation of the
    loop leaves the reader, the word and the record as they are. *)
Lemma go_step_infinite reader go_args :
  infinite go_args = true ->
  go_step (reader, "infinite", go_args)
  = Continue (reader, "infinite", go_args).
Proof. intros H. simpl. rewrite H. reflexivity. Qed.

(** C3, on the argument line [infinite]: the [continue] of the
    [infinite] branch skips the [read_word] at the end of the body, so
    the loop evaluates its condition on the same word for ever; whatever
    the number of iterations, the handler has not reached
    [handler(go_args)]. *)
Theorem go_handler_infinite_loops :
  forall budget, go_handler budget "infinite" = None.
Proof.
  intros budget. unfold go_handler.
  change (read_word (new_ArgReader "infinite"))
    with ({| m_arg_str := "infinite"; m_pos := 8 |}, "infinite").
  cbv beta iota.
  apply while_loop_stuck, go_step_infinite. reflexivity.
Qed.

(** ** The position handler *)

Example position_startpos_moves :
  split_command "position startpos moves e2e4 e7e5"
  = ("position", "startpos moves e2e4 e7e5")
  /\ position_handler 3 "startpos moves e2e4 e7e5"
     = Some (Return {| fen := live startpos_fen;
                       moves := ["e2e4"; "e7e5"] |}).
Proof. vm_compute. split; reflexivity. Qed.

(** Whatever the number of iterations granted, the handler does not
    deliver a live view of the fen text without a final space. *)
Lemma position_fen_moves_not_trimmed :
  ~ exists budget,
      position_handler budget
        (snd (split_command "position fen 8/8/8/8/8/8/8/8 w - - 0 1 moves"))
      = Some (Return {| fen := live "8/8/8/8/8/8/8/8 w - - 0 1";
                        moves := [] |}).
Proof.
  intros [budget H].
  do 7 (destruct budget as [|budget]; [vm_compute in H; discriminate|]).
  vm_compute in H. discriminate.
Qed.

(** C4, on the line [position fen 8/8/8/8/8/8/8/8 w - - 0 1 moves]: the
    handler receives the argument text after [position] and, given at
    least seven loop iterations, reaches [handler(args)] with an empty
    move list and with [args.fen] viewing the temporary string of
    [fen_stream.str()], which is destroyed by then: no fen text is
    defined for the client. The temporary held every word followed by
    one space, so with a final space. *)
Theorem position_fen_moves :
  forall budget,
    position_handler (7 + budget)
      (snd (split_command "position fen 8/8/8/8/8/8/8/8 w - - 0 1 moves"))
    = Some (Return {| fen := dangling "8/8/8/8/8/8/8/8 w - - 0 1 ";
                      moves := [] |})
    /\ view_text (dangling "8/8/8/8/8/8/8/8 w - - 0 1 ") = None.
Proof. intros budget. vm_compute. split; reflexivity. Qed.

(** ** The work thread *)

(** One direction holds: when [work_thread_running] answers [true], a
    task is installed. *)
Lemma work_thread_running_sound s :
  work_thread_running s = true -> task_installed_or_executing s.
Proof.
  destruct s as [t|]; simpl; [|discriminate].
  unfold running. destruct (m_task t); [|discriminate].
  intros _. left. eexists. reflexivity.
Qed.

(** One statement of the main thread, in a run. *)
Lemma reach_statement st rest s more s' :
  execute st s = Some (more, s') ->
  system_reachable (Live (st :: rest) s) ->
  system_reachable (Live (more ++ rest)%list s').
Proof.
  intros Hexec Hreach.
  exact (system_next _ _ Hreach (step_statement st rest s more s' Hexec)).
Qed.

(** The first launch, when the thread does not run before its members
    exist: the members are initialised, the stop flag is raised and
    lowered again, the task is installed, and the thread takes it. *)
Lemma first_task_in_body task :
  system_reachable
    (Live [] (Some {| m_task := None; m_kill := false; m_stop := false;
                      task_to_run := Some task; returned := false |})).
Proof.
  refine (system_next _ _ _
            (step_run_wakes []
               (submit_task task (stop_current_task new_WorkThread))
               _ eq_refl)).
  refine (reach_statement (call_submit_task task) []
            (Some (stop_current_task new_WorkThread)) [] _ eq_refl _).
  refine (reach_statement store_stop [call_submit_task task]
            (Some new_WorkThread) [] _ eq_refl _).
  refine (reach_statement init_members
            [store_stop; call_submit_task task] None [] _ eq_refl _).
  refine (reach_statement make_WorkThread
            [store_stop; call_submit_task task] None [init_members] _
            eq_refl _).
  exact (system_next _ _ system_initial (step_launch task None)).
Qed.

(** C5, after [launch_work_thread(task)] and the wake-up of the thread:
    [run] has moved the task from [m_task] to its local variable and is
    inside the task body, and [work_thread_running] answers [false]. *)
Theorem work_thread_running_false_in_body :
  let s := Some {| m_task := None; m_kill := false; m_stop := false;
                   task_to_run := Some 0%nat; returned := false |} in
  worker_reachable s
  /\ task_installed_or_executing s
  /\ work_thread_running s = false.
Proof.
  intros s. split; [|split].
  - apply (first_task_in_body 0%nat).
  - right. eexists. reflexivity.
  - reflexivity.
Qed.

(** ** Score *)

Lemma wrap_int_small z : in_int z -> wrap_int z = z.
Proof.
  unfold in_int, INT_MIN, INT_MAX, wrap_int. intros H.
  rewrite Z.mod_small; lia.
Qed.

Example score_cp_250 : info.print_Score (info.Score_1 250) = "score cp 250".
Proof. vm_compute. reflexivity. Qed.

Example score_mate_5 :
  info.print_Score (info.Score_3 990 1000 10) = "score mate 5".
Proof. vm_compute. reflexivity. Qed.

(** C9 as stated does not hold for a negative mate constant: the
    constructor keeps [abs(mate)], the rule of the specification counts
    the plies from [mate] itself. *)
Lemma score_negative_mate_constant :
  in_int 990 /\ in_int (-1000) /\ in_int 10
  /\ info.print_Score (info.Score_3 990 (-1000) 10) = "score mate 5"
  /\ score_text_of_spec 990 (-1000) 10 = "score mate -994"
  /\ info.print_Score (info.Score_3 990 (-1000) 10)
     <> score_text_of_spec 990 (-1000) 10.
Proof.
  unfold in_int, INT_MIN, INT_MAX.
  repeat split; try lia; try (vm_compute; reflexivity).
  vm_compute. discriminate.
Qed.

(** C9, amended: for [int] values [s], [m], [t] on which no operation
    of the constructor or of the printer overflows, [Score(s)] prints as
    [score cp s]; [Score(s, m, t)] prints as [score cp s] when
    [|s| < m - t], and otherwise as [score mate] followed by [moves] when
    [s > 0] and by [-moves] when [s <= 0], where [plies = |m| - |s|] and
    [moves = (plies + 1) / 2] with the division truncating toward zero.
    [Score(250)] prints [score cp 250] and [Score(990, 1000, 10)] prints
    [score mate 5]. *)
Theorem print_Score_rule (s m t : Z) :
  INT_MIN < s <= INT_MAX ->
  INT_MIN < m <= INT_MAX ->
  in_int t ->
  in_int (m - t) ->
  Z.abs m - Z.abs s < INT_MAX ->
  info.print_Score (info.Score_1 s) = "score cp " ++ to_string s
  /\ info.print_Score (info.Score_3 s m t)
     = (if Z.abs s <? m - t then "score cp " ++ to_string s
        else
          let plies := Z.abs m - Z.abs s in
          let moves := Z.quot (plies + 1) 2 in
          "score mate " ++ to_string (if s >? 0 then moves else - moves))
  /\ info.print_Score (info.Score_1 250) = "score cp 250"
  /\ info.print_Score (info.Score_3 990 1000 10) = "score mate 5".
Proof.
  intros Hs Hm Ht Hmt Hp.
  split; [reflexivity|].
  split; [|split; vm_compute; reflexivity].
  unfold in_int, INT_MIN, INT_MAX in *.
  assert (Has : wrap_int (Z.abs s) = Z.abs s)
    by (apply wrap_int_small; unfold in_int, INT_MIN, INT_MAX; lia).
  assert (Ham : wrap_int (Z.abs m) = Z.abs m)
    by (apply wrap_int_small; unfold in_int, INT_MIN, INT_MAX; lia).
  assert (Hth : wrap_int (m - t) = m - t)
    by (apply wrap_int_small; unfold in_int, INT_MIN, INT_MAX; lia).
  assert (Hpl : wrap_int (Z.abs m - Z.abs s) = Z.abs m - Z.abs s)
    by (apply wrap_int_small; unfold in_int, INT_MIN, INT_MAX; lia).
  assert (Hp1 : wrap_int (Z.abs m - Z.abs s + 1) = Z.abs m - Z.abs s + 1)
    by (apply wrap_int_small; unfold in_int, INT_MIN, INT_MAX; lia).
  unfold info.print_Score, info.Score_3. cbn [info.score
    info.allow_mate_scores info.mate_score info.mate_threshold negb orb].
  rewrite Has, Ham, Hth, Hpl, Hp1.
  destruct (Z.abs s <? m - t); [reflexivity|].
  cbv zeta. destruct (s >? 0); [reflexivity|].
  rewrite wrap_int_small; [reflexivity|].
  unfold in_int, INT_MIN, INT_MAX.
  assert (Hq : - 2 ^ 31 < Z.quot (Z.abs m - Z.abs s + 1) 2 < 2 ^ 31).
  { destruct (Z.le_gt_cases 0 (Z.abs m - Z.abs s + 1)) as [Hnn|Hneg].
    - rewrite Z.quot_div_nonneg by lia.
      pose proof (Z.div_pos (Z.abs m - Z.abs s + 1) 2 Hnn ltac:(lia)).
      assert (Z.abs m - Z.abs s + 1 < 2 * 2 ^ 31) by lia.
      pose proof (Z.div_lt_upper_bound (Z.abs m - Z.abs s + 1) 2 (2 ^ 31)
                    ltac:(lia) ltac:(lia)).
      lia.
    - replace (Z.abs m - Z.abs s + 1)
        with (- (Z.abs s - Z.abs m - 1)) by lia.
      rewrite Z.quot_opp_l by lia.
      rewrite Z.quot_div_nonneg by lia.
      pose proof (Z.div_pos (Z.abs s - Z.abs m - 1) 2 ltac:(lia) ltac:(lia)).
      pose proof (Z.div_lt_upper_bound (Z.abs s - Z.abs m - 1) 2 (2 ^ 31)
                    ltac:(lia) ltac:(lia)).
      lia. }
  lia.
Qed.

Lemma print_Score_rule_witness :
  info.print_Score (info.Score_3 (-995) 1000 10)
  = "score mate " ++ to_string (- Z.quot (Z.abs 1000 - Z.abs (-995) + 1) 2).
Proof.
  assert (H1 : INT_MIN < -995 <= INT_MAX) by (unfold INT_MIN, INT_MAX; lia).
  assert (H2 : INT_MIN < 1000 <= INT_MAX) by (unfold INT_MIN, INT_MAX; lia).
  assert (H3 : in_int 10) by (unfold in_int, INT_MIN, INT_MAX; lia).
  assert (H4 : in_int (1000 - 10)) by (unfold in_int, INT_MIN, INT_MAX; lia).
  assert (H5 : Z.abs 1000 - Z.abs (-995) < INT_MAX)
    by (unfold INT_MAX; simpl; lia).
  destruct (print_Score_rule (-995) 1000 10 H1 H2 H3 H4 H5) as (_ & H & _).
  exact H.
Defined.

(** ** ArgReader *)

Lemma read_while_run pred r a b :
  substr_from (m_pos r) (m_arg_str r) = a ++ b ->
  all_of pred a = true -> stops pred b = true ->
  read_while pred r = (set_pos r (m_pos r + String.length a), a).
Proof.
  intros Hrem Ha Hb. unfold read_while, finished.
  destruct (Nat.leb_spec (String.length (m_arg_str r)) (m_pos r)) as [Hf|Hf].
  - rewrite substr_from_past_end in Hrem by exact Hf.
    symmetry in Hrem. apply append_is_empty in Hrem as [-> _]. simpl.
    rewrite Nat.add_0_r, set_pos_same. reflexivity.
  - rewrite substr_via_substr_from, Hrem, run_length_append by assumption.
    rewrite substr_prefix. reflexivity.
Qed.

Lemma skip_whitespace_run r ws rest :
  substr_from (m_pos r) (m_arg_str r) = ws ++ rest ->
  all_of isspace ws = true -> stops isspace rest = true ->
  skip_whitespace r = set_pos r (m_pos r + String.length ws).
Proof.
  intros Hrem Hws Hrest. unfold skip_whitespace.
  rewrite (read_while_run isspace r ws rest) by assumption. reflexivity.
Qed.

Lemma read_until_isspace_run r word tail :
  substr_from (m_pos r) (m_arg_str r) = word ++ tail ->
  all_of not_space word = true -> stops not_space tail = true ->
  read_until isspace r = (set_pos r (m_pos r + String.length word), word).
Proof.
  intros Hrem Hw Ht.
  exact (read_while_run not_space r word tail Hrem Hw Ht).
Qed.

Lemma stops_isspace_word word tail :
  word <> "" -> all_of not_space word = true ->
  stops isspace (word ++ tail) = true.
Proof.
  destruct word as [|c word]; [contradiction|]. simpl. intros _ H.
  apply andb_true_iff in H as [H _]. exact H.
Qed.

(** [read_word] on a text made of white space, a word and a tail that is
    empty or starts with white space: the word is returned and the
    cursor is right after it. *)
Lemma read_word_run r ws word tail :
  substr_from (m_pos r) (m_arg_str r) = ws ++ word ++ tail ->
  all_of isspace ws = true ->
  word <> "" -> all_of not_space word = true ->
  stops not_space tail = true ->
  read_word r
  = (set_pos r (m_pos r + String.length ws + String.length word), word).
Proof.
  intros Hrem Hws Hne Hw Ht. unfold read_word.
  rewrite (skip_whitespace_run r ws (word ++ tail))
    by auto using stops_isspace_word.
  rewrite (read_until_isspace_run _ word tail); auto.
  simpl. rewrite substr_from_add, Hrem. apply substr_from_append.
Qed.

Lemma all_of_append pred a b :
  all_of pred (a ++ b) = all_of pred a && all_of pred b.
Proof.
  induction a as [|x a IH]; simpl; [reflexivity|].
  rewrite IH, andb_assoc. reflexivity.
Qed.

Lemma all_of_weaken (p q : ascii -> bool) s :
  (forall c, p c = true -> q c = true) ->
  all_of p s = true -> all_of q s = true.
Proof.
  intros Hpq. induction s as [|c s IH]; simpl; [reflexivity|].
  intros H. apply andb_true_iff in H as [Hc Hs].
  rewrite (Hpq c Hc), (IH Hs). reflexivity.
Qed.

Lemma isdigit_not_space c : isdigit c = true -> not_space c = true.
Proof.
  destruct c as [[] [] [] [] [] [] [] []]; vm_compute; intros H;
    first [reflexivity | discriminate].
Qed.

Lemma isdigit_not_sign c :
  isdigit c = true -> (c =? "-")%char = false /\ (c =? "+")%char = false.
Proof.
  destruct c as [[] [] [] [] [] [] [] []]; vm_compute; intros H;
    first [split; reflexivity | discriminate].
Qed.

(** ** stoll *)

Lemma stoll_outcomes s :
  (exists v, stoll s = Return v /\ in_int64 v)
  \/ stoll s = Throw (std_invalid_argument "stoll")
  \/ stoll s = Throw (std_out_of_range "stoll").
Proof.
  unfold stoll.
  destruct (strip_sign (substr_from (run_length isspace s) s))
    as [negative s2].
  destruct (run_length isdigit s2) as [|n]; [right; left; reflexivity|].
  cbv zeta.
  match goal with
  | |- context [if ?b then Return ?v else _] =>
      destruct b eqn:Hb; [left; exists v; split; [reflexivity|]|]
  end.
  - apply andb_true_iff in Hb as [H1 H2].
    apply Z.leb_le in H1, H2. split; assumption.
  - right; right; reflexivity.
Qed.

Lemma stoll_digits negative digits junk :
  digits <> "" -> all_of isdigit digits = true -> stops isdigit junk = true ->
  in_int64 (if negative : bool then - digits_value 0 digits
            else digits_value 0 digits) ->
  match run_length isdigit (digits ++ junk) with
  | O => Throw (std_invalid_argument "stoll")
  | S _ =>
      let magnitude :=
        digits_value 0 (substr 0 (run_length isdigit (digits ++ junk))
                               (digits ++ junk)) in
      let v := if negative then - magnitude else magnitude in
      if (LLONG_MIN <=? v) && (v <=? LLONG_MAX)
      then Return v
      else Throw (std_out_of_range "stoll")
  end
  = Return (if negative then - digits_value 0 digits
            else digits_value 0 digits).
Proof.
  intros Hne Hd Hj [Hlo Hhi].
  rewrite run_length_append, substr_prefix by assumption.
  destruct digits as [|c d]; [contradiction|].
  set (ds := String c d) in *.
  change (String.length ds) with (S (String.length d)). cbv iota zeta.
  apply Z.leb_le in Hlo, Hhi. rewrite Hlo, Hhi. reflexivity.
Qed.

(** [std::stoll] on a sign, digits and characters that do not continue
    the digits: the value of the signed digits. *)
Lemma stoll_numeric_prefix sign digits junk :
  sign = "" \/ sign = "+" \/ sign = "-" ->
  digits <> "" -> all_of isdigit digits = true -> stops isdigit junk = true ->
  in_int64 (numeral_value sign digits) ->
  stoll (sign ++ digits ++ junk) = Return (numeral_value sign digits).
Proof.
  intros Hsign Hne Hd Hj Hv.
  assert (Hfirst : exists c d, digits = String c d /\ isdigit c = true).
  { destruct digits as [|c d]; [contradiction|]. simpl in Hd.
    apply andb_true_iff in Hd as [Hc _]. eauto. }
  destruct Hfirst as (c & d & Hcd & Hc).
  unfold stoll, numeral_value in *.
  destruct Hsign as [->|[->| ->]].
  - change ("" ++ digits ++ junk) with (digits ++ junk).
    assert (Hsp : run_length isspace (digits ++ junk) = O).
    { rewrite Hcd. simpl. apply isdigit_not_space in Hc.
      unfold not_space in Hc. apply negb_true_iff in Hc.
      rewrite Hc. reflexivity. }
    assert (Hst : strip_sign (digits ++ junk) = (false, digits ++ junk)).
    { destruct (isdigit_not_sign c Hc) as [Hm Hp].
      rewrite Hcd. simpl. rewrite Hm, Hp. reflexivity. }
    rewrite Hsp. cbn [substr_from]. rewrite Hst.
    apply (stoll_digits false); assumption.
  - change (run_length isspace ("+" ++ digits ++ junk)) with O.
    cbn [substr_from].
    change (strip_sign ("+" ++ digits ++ junk)) with (false, digits ++ junk).
    apply (stoll_digits false); assumption.
  - change (run_length isspace ("-" ++ digits ++ junk)) with O.
    cbn [substr_from].
    change (strip_sign ("-" ++ digits ++ junk)) with (true, digits ++ junk).
    apply (stoll_digits true); assumption.
Qed.

(** ** try_read_int and read_int *)

Example try_read_int_42 :
  try_read_int (new_ArgReader "  42  rest")
  = ({| m_arg_str := "  42  rest"; m_pos := 4 |}, Return (Some 42)).
Proof. vm_compute. reflexivity. Qed.

Example try_read_int_abc :
  try_read_int (new_ArgReader "abc")
  = ({| m_arg_str := "abc"; m_pos := 0 |}, Return None).
Proof. vm_compute. reflexivity. Qed.

(** The three ways [try_read_int] ends: with a value; with no value and
    the cursor where it was at the call; with the [std::out_of_range] of
    [std::stoll]. *)
Lemma try_read_int_outcomes r :
  (exists v, snd (try_read_int r) = Return (Some v))
  \/ (snd (try_read_int r) = Return None
      /\ m_pos (fst (try_read_int r)) = m_pos r)
  \/ snd (try_read_int r) = Throw (std_out_of_range "stoll").
Proof.
  unfold try_read_int.
  destruct (read_word (skip_whitespace r)) as [r2 int_str].
  destruct (stoll_outcomes int_str) as [(v & Hv & _)|[Hv|Hv]]; rewrite Hv.
  - left. exists v. reflexivity.
  - right. left. split; reflexivity.
  - right. right. reflexivity.
Qed.

(** C8, on a numeral that does not fit in 64 bits: [std::stoll] throws
    [std::out_of_range], which [try_read_int] does not catch; the call
    ends with that exception and the cursor after the word. *)
Theorem try_read_int_out_of_range :
  try_read_int (new_ArgReader "99999999999999999999")
  = ({| m_arg_str := "99999999999999999999"; m_pos := 20 |},
     Throw (std_out_of_range "stoll")).
Proof. vm_compute. reflexivity. Qed.

(** C10: the text from the cursor on is white space [ws], then a word
    made of a sign text, digits and at least one further character, the
    first of which is not a digit, then a tail that is empty or starts
    with white space; the signed digits denote a 64-bit value. Then
    [try_read_int] and [read_int] return that value and leave the cursor
    after the whole word; and the go handler run on [depth 5x] delivers a
    record with depth 5, no other limit, and [infinite] false. *)
Theorem read_int_numeric_prefix (r : ArgReader)
        (ws sign digits junk tail : string) :
  substr_from (m_pos r) (m_arg_str r)
  = ws ++ (sign ++ digits ++ junk) ++ tail ->
  all_of isspace ws = true ->
  sign = "" \/ sign = "+" \/ sign = "-" ->
  digits <> "" -> all_of isdigit digits = true ->
  junk <> "" -> stops isdigit junk = true -> all_of not_space junk = true ->
  stops not_space tail = true ->
  in_int64 (numeral_value sign digits) ->
  try_read_int r
  = (set_pos r (m_pos r + String.length ws
                + String.length (sign ++ digits ++ junk)),
     Return (Some (numeral_value sign digits)))
  /\ read_int r
     = (set_pos r (m_pos r + String.length ws
                   + String.length (sign ++ digits ++ junk)),
        Return (numeral_value sign digits))
  /\ go_handler 2 "depth 5x"
     = Some (Return {| depth := Some 5; w_time := None; w_inc := None;
                       b_time := None; b_inc := None; move_time := None;
                       nodes := None; infinite := false |}).
Proof.
  intros Hrem Hws Hsign Hne Hd Hjne Hj Hjs Htail Hv.
  set (word := sign ++ digits ++ junk) in *.
  assert (Hword : all_of not_space word = true).
  { unfold word. rewrite !all_of_append.
    rewrite (all_of_weaken isdigit not_space digits isdigit_not_space Hd), Hjs.
    destruct Hsign as [->|[->| ->]]; reflexivity. }
  assert (Hwne : word <> "").
  { unfold word. intros He. apply append_is_empty in He as [_ He].
    apply append_is_empty in He as [He _]. contradiction. }
  assert (Htry : try_read_int r
                 = (set_pos r (m_pos r + String.length ws
                               + String.length word),
                    Return (Some (numeral_value sign digits)))).
  { unfold try_read_int.
    rewrite (skip_whitespace_run r ws (word ++ tail))
      by auto using stops_isspace_word.
    rewrite (read_word_run _ "" word tail); auto.
    - unfold word. rewrite stoll_numeric_prefix by assumption.
      simpl. rewrite Nat.add_0_r. reflexivity.
    - simpl. rewrite substr_from_add, Hrem. apply substr_from_append. }
  split; [exact Htry|]. split.
  - unfold read_int. rewrite Htry. reflexivity.
  - vm_compute. reflexivity.
Qed.

Lemma read_int_numeric_prefix_witness :
  try_read_int (new_ArgReader "42abc")
  = ({| m_arg_str := "42abc"; m_pos := 5 |}, Return (Some 42))
  /\ read_int {| m_arg_str := "go depth -7x 3"; m_pos := 8 |}
     = ({| m_arg_str := "go depth -7x 3"; m_pos := 12 |}, Return (-7)).
Proof.
  split.
  - destruct (read_int_numeric_prefix (new_ArgReader "42abc")
                "" "" "42" "abc" "") as (Htry & _);
      first [exact Htry | reflexivity | discriminate | (left; reflexivity)
            | (vm_compute; split; discriminate)].
  - destruct (read_int_numeric_prefix
                {| m_arg_str := "go depth -7x 3"; m_pos := 8 |}
                " " "-" "7" "x" " 3") as (_ & Hread & _);
      first [exact Hread | reflexivity | discriminate
            | (right; right; reflexivity)
            | (vm_compute; split; discriminate)].
Defined.

(* ===================================================================== *)
(** * Further properties *)
(* ===================================================================== *)

(** ** Runs of characters *)

Lemma run_length_le pred s : (run_length pred s <= String.length s)%nat.
Proof.
  induction s as [|c s IH]; simpl; [lia|].
  destruct (pred c); simpl; lia.
Qed.

Lemma run_length_prefix pred s :
  all_of pred (substr 0 (run_length pred s) s) = true.
Proof.
  unfold substr. induction s as [|c s IH]; simpl; [reflexivity|].
  destruct (pred c) eqn:Hc; simpl; [|reflexivity].
  rewrite Hc, IH. reflexivity.
Qed.

Lemma run_length_suffix pred s :
  stops pred (substr_from (run_length pred s) s) = true.
Proof.
  induction s as [|c s IH]; simpl; [reflexivity|].
  destruct (pred c) eqn:Hc; simpl; [exact IH|].
  rewrite Hc. reflexivity.
Qed.

Lemma substr_split n s : s = substr 0 n s ++ substr_from n s.
Proof.
  unfold substr. revert s. induction n as [|n IH]; intros s.
  - destruct s; reflexivity.
  - destruct s as [|c s]; simpl; [reflexivity|].
    rewrite <- IH. reflexivity.
Qed.

Lemma length_substr_from n s :
  String.length (substr_from n s) = (String.length s - n)%nat.
Proof.
  revert s. induction n as [|n IH]; intros s.
  - simpl. lia.
  - destruct s as [|c s]; simpl; [reflexivity|]. apply IH.
Qed.

Lemma length_substr_prefix n s :
  (n <= String.length s)%nat -> String.length (substr 0 n s) = n.
Proof.
  unfold substr. revert s. induction n as [|n IH]; intros s Hn.
  - destruct s; reflexivity.
  - destruct s as [|c s]; simpl in *; [lia|]. rewrite IH; lia.
Qed.

(** ** The reading primitives *)

Lemma read_while_consumes pred r :
  consumes pred r (fst (read_while pred r)) (snd (read_while pred r)).
Proof.
  unfold consumes, read_while, finished, peek_remainder.
  destruct (Nat.leb_spec (String.length (m_arg_str r)) (m_pos r))
    as [Hf|Hf]; simpl.
  - rewrite substr_from_past_end by exact Hf.
    repeat split; lia.
  - set (rest := substr_from (m_pos r) (m_arg_str r)).
    set (n := run_length pred rest).
    rewrite substr_from_add, substr_via_substr_from. fold rest.
    pose proof (run_length_le pred rest) as Hle. fold n in Hle.
    repeat split.
    + rewrite length_substr_prefix; [reflexivity|exact Hle].
    + apply substr_split.
    + apply run_length_prefix.
    + apply run_length_suffix.
Qed.

(** X1: [read_while pred] consumes exactly the longest run of characters
    satisfying [pred] in front of the cursor and returns it; [read_until
    pred] does the same with the characters that do not satisfy [pred].
    The text is never changed, and nothing is skipped or lost. *)
Theorem read_while_until_consume pred r :
  consumes pred r (fst (read_while pred r)) (snd (read_while pred r))
  /\ consumes (fun c => negb (pred c)) r
              (fst (read_until pred r)) (snd (read_until pred r)).
Proof.
  split.
  - apply read_while_consumes.
  - exact (read_while_consumes (fun c => negb (pred c)) r).
Qed.

Lemma consumes_in_bounds pred r r' w :
  consumes pred r r' w -> in_bounds r -> in_bounds r'.
Proof.
  unfold consumes, in_bounds, peek_remainder.
  intros (Hs & Hp & Hrem & _) Hb.
  apply (f_equal String.length) in Hrem.
  rewrite length_append, !length_substr_from, Hs in Hrem.
  rewrite Hs. lia.
Qed.

Lemma stops_both s :
  stops isspace s = true -> stops not_space s = true -> s = "".
Proof.
  destruct s as [|c s]; [reflexivity|]. unfold not_space. simpl.
  destruct (isspace c); discriminate.
Qed.

Lemma skip_whitespace_consumes r :
  consumes isspace r (skip_whitespace r) (snd (read_while isspace r)).
Proof. apply read_while_consumes. Qed.

Lemma read_until_isspace_consumes r :
  consumes not_space r (fst (read_until isspace r))
           (snd (read_until isspace r)).
Proof. exact (read_while_consumes not_space r). Qed.

(** What [read_word] does, in one statement. *)
Lemma read_word_parts r :
  exists ws,
    all_of isspace ws = true
    /\ peek_remainder r = ws ++ snd (read_word r)
                          ++ peek_remainder (fst (read_word r))
    /\ all_of not_space (snd (read_word r)) = true
    /\ stops not_space (peek_remainder (fst (read_word r))) = true
    /\ m_arg_str (fst (read_word r)) = m_arg_str r
    /\ m_pos (fst (read_word r))
       = (m_pos r + String.length ws
          + String.length (snd (read_word r)))%nat
    /\ (snd (read_word r) = "" -> peek_remainder (fst (read_word r)) = "").
Proof.
  destruct (skip_whitespace_consumes r) as (Hs1 & Hp1 & Hr1 & Ha1 & Ht1).
  destruct (read_until_isspace_consumes (skip_whitespace r))
    as (Hs2 & Hp2 & Hr2 & Ha2 & Ht2).
  fold (read_word r) in *.
  exists (snd (read_while isspace r)).
  repeat split; try assumption.
  - rewrite Hr1, Hr2. reflexivity.
  - congruence.
  - lia.
  - intros Hw. rewrite Hw in Hr2. simpl in Hr2.
    rewrite Hr2 in Ht1. apply stops_both; assumption.
Qed.

(** X2: [read_word] skips the white space in front of the cursor and
    returns the longest run of other characters after it. Nothing else
    is consumed; the word has no white space in it, and what follows it
    is the end of the text or white space. The word is empty only when
    nothing but white space was left, and then the cursor is at the
    end. *)
Theorem read_word_consumes r :
  exists ws,
    all_of isspace ws = true
    /\ peek_remainder r = ws ++ snd (read_word r)
                          ++ peek_remainder (fst (read_word r))
    /\ all_of not_space (snd (read_word r)) = true
    /\ stops not_space (peek_remainder (fst (read_word r))) = true
    /\ m_arg_str (fst (read_word r)) = m_arg_str r
    /\ m_pos (fst (read_word r))
       = (m_pos r + String.length ws
          + String.length (snd (read_word r)))%nat
    /\ (snd (read_word r) = ""
        <-> all_of isspace (peek_remainder r) = true).
Proof.
  destruct (read_word_parts r) as (ws & Hws & Hrem & Hw & Ht & Hs & Hp & He).
  exists ws. repeat split; try assumption.
  - intros Hempty. rewrite Hrem, Hempty, (He Hempty). simpl.
    rewrite append_empty_r. exact Hws.
  - intros Hall. rewrite Hrem, !all_of_append in Hall.
    apply andb_true_iff in Hall as [_ Hall].
    apply andb_true_iff in Hall as [Hall _].
    destruct (snd (read_word r)) as [|c w]; [reflexivity|].
    simpl in Hall, Hw. unfold not_space in Hw.
    destruct (isspace c); discriminate.
Qed.

Lemma read_word_in_bounds r :
  in_bounds r ->
  in_bounds (fst (read_word r))
  /\ (m_pos r <= m_pos (fst (read_word r)))%nat.
Proof.
  intros Hb.
  pose proof (consumes_in_bounds _ _ _ _ (skip_whitespace_consumes r) Hb)
    as Hb1.
  pose proof (consumes_in_bounds _ _ _ _
                (read_until_isspace_consumes (skip_whitespace r)) Hb1) as Hb2.
  split; [exact Hb2|].
  destruct (read_word_parts r) as (ws & _ & _ & _ & _ & _ & Hp & _). lia.
Qed.

Lemma read_word_nonempty_advances r :
  snd (read_word r) <> "" -> (m_pos r < m_pos (fst (read_word r)))%nat.
Proof.
  intros Hne.
  destruct (read_word_parts r) as (ws & _ & _ & _ & _ & _ & Hp & _).
  destruct (snd (read_word r)); [contradiction|]. simpl in Hp. lia.
Qed.

Lemma skip_whitespace_idempotent r :
  skip_whitespace (skip_whitespace r) = skip_whitespace r.
Proof.
  destruct (skip_whitespace_consumes r) as (_ & _ & _ & _ & Hstop).
  set (r1 := skip_whitespace r) in *.
  unfold skip_whitespace at 1. unfold read_while.
  destruct (finished r1); [reflexivity|]. simpl.
  unfold peek_remainder in Hstop.
  destruct (substr_from (m_pos r1) (m_arg_str r1)) as [|c rest];
    simpl in *.
  - rewrite Nat.add_0_r. apply set_pos_same.
  - apply negb_true_iff in Hstop. rewrite Hstop.
    rewrite Nat.add_0_r. apply set_pos_same.
Qed.

Lemma read_word_after_skip r : read_word (skip_whitespace r) = read_word r.
Proof. unfold read_word. rewrite skip_whitespace_idempotent. reflexivity. Qed.

Lemma stoll_returns_nonempty w v : stoll w = Return v -> w <> "".
Proof. intros H ->. vm_compute in H. discriminate. Qed.

(** [try_read_int] in terms of the word [read_word] returns. *)
Lemma try_read_int_by_word r :
  (exists v,
      stoll (snd (read_word r)) = Return v
      /\ try_read_int r = (fst (read_word r), Return (Some v))
      /\ in_int64 v
      /\ (m_pos r < m_pos (fst (read_word r)))%nat)
  \/ (stoll (snd (read_word r)) = Throw (std_invalid_argument "stoll")
      /\ try_read_int r = (r, Return None))
  \/ (stoll (snd (read_word r)) = Throw (std_out_of_range "stoll")
      /\ try_read_int r
         = (fst (read_word r), Throw (std_out_of_range "stoll"))).
Proof.
  unfold try_read_int. rewrite read_word_after_skip.
  pose proof (read_word_nonempty_advances r) as Hadv.
  destruct (read_word_parts r) as (_ & _ & _ & _ & _ & Hs & _ & _).
  destruct (read_word r) as [r2 w]. simpl in *.
  destruct (stoll_outcomes w) as [(v & Hv & Hr)|[Hv|Hv]]; rewrite Hv.
  - left. exists v. split; [reflexivity|]. split; [reflexivity|].
    split; [exact Hr|].
    apply Hadv. eapply stoll_returns_nonempty. exact Hv.
  - right. left. split; [reflexivity|].
    f_equal. destruct r as [s p]. unfold set_pos. simpl in *.
    rewrite Hs. reflexivity.
  - right. right. split; reflexivity.
Qed.

(** X3: the three ways [try_read_int] and [read_int] end. When
    [std::stoll] converts the next word, both return the value, a 64-bit
    integer, with the cursor after the word, strictly further than
    before. When the word does not start with a numeral (or there is no
    word), [try_read_int] returns no value and [read_int] throws
    [InputError], and in both cases the reader is exactly as it was
    before the call. When the numeral does not fit in 64 bits, both
    leave with [std::out_of_range] and the cursor after the word. *)
Theorem read_int_three_outcomes r :
  (exists v,
      stoll (snd (read_word r)) = Return v
      /\ try_read_int r = (fst (read_word r), Return (Some v))
      /\ read_int r = (fst (read_word r), Return v)
      /\ in_int64 v
      /\ (m_pos r < m_pos (fst (read_word r)))%nat)
  \/ (stoll (snd (read_word r)) = Throw (std_invalid_argument "stoll")
      /\ try_read_int r = (r, Return None)
      /\ read_int r = (r, Throw (InputError "Expected an integer number.")))
  \/ (stoll (snd (read_word r)) = Throw (std_out_of_range "stoll")
      /\ try_read_int r
         = (fst (read_word r), Throw (std_out_of_range "stoll"))
      /\ read_int r
         = (fst (read_word r), Throw (std_out_of_range "stoll"))).
Proof.
  unfold read_int.
  destruct (try_read_int_by_word r)
    as [(v & Hv & Ht & Hr & Hp)|[(Hv & Ht)|(Hv & Ht)]]; rewrite Ht.
  - left. exists v. auto.
  - right. left. auto.
  - right. right. auto.
Qed.

Lemma read_int_in_bounds r :
  in_bounds r ->
  in_bounds (fst (read_int r))
  /\ (m_pos r <= m_pos (fst (read_int r)))%nat
  /\ m_arg_str (fst (read_int r)) = m_arg_str r.
Proof.
  intros Hb. unfold read_int.
  destruct (read_word_in_bounds r Hb) as [Hb' Hle].
  destruct (read_word_parts r) as (_ & _ & _ & _ & _ & Hs & _ & _).
  destruct (try_read_int_by_word r)
    as [(v & _ & Ht & _ & _)|[(_ & Ht)|(_ & Ht)]]; rewrite Ht; simpl;
    repeat split; first [assumption | lia | reflexivity].
Qed.

(** X4: the cursor stays inside the text and never moves backwards: for
    a reader whose cursor is within the text, [skip_whitespace],
    [read_word], [try_read_int] and [read_int] return a reader over the
    same text whose cursor is within the text and not before the old
    one. *)
Theorem cursor_stays_in_bounds r :
  in_bounds r ->
  (in_bounds (skip_whitespace r)
   /\ (m_pos r <= m_pos (skip_whitespace r))%nat
   /\ m_arg_str (skip_whitespace r) = m_arg_str r)
  /\ (in_bounds (fst (read_word r))
      /\ (m_pos r <= m_pos (fst (read_word r)))%nat
      /\ m_arg_str (fst (read_word r)) = m_arg_str r)
  /\ (in_bounds (fst (try_read_int r))
      /\ (m_pos r <= m_pos (fst (try_read_int r)))%nat
      /\ m_arg_str (fst (try_read_int r)) = m_arg_str r)
  /\ (in_bounds (fst (read_int r))
      /\ (m_pos r <= m_pos (fst (read_int r)))%nat
      /\ m_arg_str (fst (read_int r)) = m_arg_str r).
Proof.
  intros Hb.
  destruct (read_word_in_bounds r Hb) as [Hb' Hle].
  destruct (read_word_parts r) as (_ & _ & _ & _ & _ & Hs & _ & _).
  split; [|split; [|split]].
  - pose proof (skip_whitespace_consumes r) as Hc.
    split; [exact (consumes_in_bounds _ _ _ _ Hc Hb)|].
    destruct Hc as (Hs1 & Hp1 & _). split; [lia|exact Hs1].
  - repeat split; assumption.
  - destruct (try_read_int_by_word r)
      as [(v & _ & Ht & _ & _)|[(_ & Ht)|(_ & Ht)]]; rewrite Ht; simpl;
      repeat split; first [assumption | lia | reflexivity].
  - apply read_int_in_bounds. exact Hb.
Qed.

Lemma cursor_stays_in_bounds_witness :
  in_bounds (fst (read_int {| m_arg_str := "depth 12 "; m_pos := 5 |}))
  /\ (5 <= m_pos (fst (read_int {| m_arg_str := "depth 12 "; m_pos := 5 |})))%nat.
Proof.
  assert (Hb : in_bounds {| m_arg_str := "depth 12 "; m_pos := 5 |})
    by (unfold in_bounds; simpl; lia).
  destruct (cursor_stays_in_bounds _ Hb) as (_ & _ & _ & H1 & H2 & _).
  split; [exact H1|exact H2].
Defined.

(** X5: what [main_loop] makes of a line. The line is white space, the
    command word, white space, and the context handed to the handler;
    the command has no white space in it and the context does not start
    with white space. When the command is empty, so is the context. *)
Theorem split_command_parts line :
  exists ws1 ws2,
    line = ws1 ++ fst (split_command line) ++ ws2 ++ snd (split_command line)
    /\ all_of isspace ws1 = true
    /\ all_of isspace ws2 = true
    /\ all_of not_space (fst (split_command line)) = true
    /\ stops isspace (snd (split_command line)) = true
    /\ (fst (split_command line) = "" -> snd (split_command line) = "").
Proof.
  unfold split_command.
  destruct (read_word_parts (new_ArgReader line))
    as (ws1 & Hws1 & Hrem & Hw & Ht & Hs & Hp & He).
  destruct (read_word (new_ArgReader line)) as [reader command].
  simpl in *.
  destruct (skip_whitespace_consumes reader) as (_ & _ & Hr2 & Ha2 & Ht2).
  exists ws1, (snd (read_while isspace reader)).
  repeat split; try assumption.
  - change (peek_remainder (new_ArgReader line)) with line in Hrem.
    rewrite Hrem, Hr2. reflexivity.
  - intros Hc. specialize (He Hc). rewrite He in Hr2.
    symmetry in Hr2. apply append_is_empty in Hr2 as [_ Hr2]. exact Hr2.
Qed.

(** ** Option registry *)

Lemma type_of_same_index (u v : OptionValue) :
  index u = index v ->
  OptionType_of_index (index u) = OptionType_of_index (index v).
Proof. intros ->. reflexivity. Qed.

(** X6: [set_option] writes nothing but the current value of the option
    it names. Every other option is as before; no option appears or
    disappears; the named option keeps its kind, default value, bounds
    and stored lambda. This holds whether [set_option] returns or
    throws. *)
Theorem set_option_only_current name v w name' :
  (name' <> name ->
   s_options (fst (set_option name v w)) !! name' = s_options w !! name')
  /\ (type <$> s_options (fst (set_option name v w)) !! name')
     = (type <$> s_options w !! name')
  /\ (default_value <$> s_options (fst (set_option name v w)) !! name')
     = (default_value <$> s_options w !! name')
  /\ (min <$> s_options (fst (set_option name v w)) !! name')
     = (min <$> s_options w !! name')
  /\ (max <$> s_options (fst (set_option name v w)) !! name')
     = (max <$> s_options w !! name')
  /\ (change_handler <$> s_options (fst (set_option name v w)) !! name')
     = (change_handler <$> s_options w !! name').
Proof.
  destruct (set_option_table name v w) as [Heq|(opt & Hl & Hi & Heq)];
    rewrite Heq.
  - repeat split; reflexivity.
  - destruct (decide (name = name')) as [->|Hne].
    + rewrite lookup_insert_eq, Hl. simpl.
      repeat split; try reflexivity.
      * intros Hc. contradiction.
      * unfold type. simpl. rewrite Hi. reflexivity.
    + rewrite lookup_insert_ne by exact Hne. repeat split; reflexivity.
Qed.

Lemma set_option_throw_world name v w e :
  snd (set_option name v w) = Throw e ->
  e <> std_bad_variant_access ->
  fst (set_option name v w) = w
  /\ (e = std_out_of_range "map::at" <-> s_options w !! name = None).
Proof.
  unfold set_option.
  destruct (s_options w !! name) as [opt|] eqn:Hl.
  - destruct (negb (index (current opt) =? index v)%nat); simpl.
    + intros [= <-] _. split; [reflexivity|]. split; discriminate.
    + match goal with
      | |- context [match ?rc with Return _ => _ | Throw _ => _ end] =>
          destruct rc as [[]|e'] eqn:Hrc
      end.
      * destruct (invoke (change_handler opt) v) as [c|e'] eqn:Hinv; simpl.
        -- discriminate.
        -- intros [= <-] Hne. exfalso. apply Hne.
           unfold invoke, get_int64, get_string in Hinv.
           destruct (change_handler opt), v; congruence.
      * simpl. intros [= <-] _. split; [reflexivity|].
        split; [|discriminate]. intros ->.
        destruct (OptionType_of_index (index (current opt)));
          try discriminate.
        unfold get_int64 in Hrc. destruct v; try discriminate.
        destruct (v >? max opt); [discriminate|].
        destruct (v <? min opt); discriminate.
  - simpl. intros [= <-] _. repeat split.
Qed.




(** X8: in a table built by registrations and [set_option] calls, on an
    option that is not a check option, [set_option] with a value of the
    kind of the option (within the bounds, for a spin option) returns;
    the table then holds the value as the current value of the option,
    and the list of callback calls has grown by exactly one call, to the
    callback of that option, with that value. *)
Theorem set_option_returns name v w opt :
  reachable w -> s_options w !! name = Some opt ->
  index v = index (current opt) -> type opt <> Check ->
  (forall z, v = Int64 z -> min opt <= z <= max opt) ->
  exists c,
    expected_call (change_handler opt) v = Some c
    /\ snd (set_option name v w) = Return tt
    /\ calls (fst (set_option name v w)) = (calls w ++ [c])%list
    /\ (current <$> s_options (fst (set_option name v w)) !! name) = Some v.
Proof.
  intros Hw Hl Hi Ht Hr.
  destruct (set_option_succeeds w name opt v
              (reachable_well_formed w Hw name opt Hl) Hl Hi Ht Hr)
    as (c & w' & Hc & Hset & Hcalls & Hcur).
  exists c. rewrite Hset. simpl. auto.
Qed.

Lemma set_option_returns_witness :
  let w := register_string_option "Book" "a.bin" 4%nat empty_world in
  snd (set_option "Book" (Str "b.bin") w) = Return tt
  /\ calls (fst (set_option "Book" (Str "b.bin") w))
     = [call_string 4%nat "b.bin"].
Proof.
  intros w.
  destruct (set_option_returns "Book" (Str "b.bin") w
              {| current := Str "a.bin"; change_handler := string_lambda 4%nat;
                 default_value := Str "a.bin"; min := 0; max := 0 |})
    as (c & Hc & Hr & Hcalls & _).
  - apply reachable_string, reachable_empty.
  - reflexivity.
  - reflexivity.
  - discriminate.
  - discriminate.
  - simpl in Hc. injection Hc as <-. split; [exact Hr|exact Hcalls].
Defined.

(** A [set_option] that writes the table has passed the range check. *)
Lemma set_option_table_checked name v w :
  s_options (fst (set_option name v w)) = s_options w
  \/ exists opt,
       s_options w !! name = Some opt
       /\ index (current opt) = index v
       /\ (forall z, v = Int64 z -> min opt <= z <= max opt)
       /\ s_options (fst (set_option name v w))
          = <[name := {| current := v;
                         change_handler := change_handler opt;
                         default_value := default_value opt;
                         min := min opt;
                         max := max opt |}]> (s_options w).
Proof.
  unfold set_option.
  destruct (s_options w !! name) as [opt|] eqn:Hl; [|left; reflexivity].
  destruct (Nat.eqb_spec (index (current opt)) (index v)) as [Hi|Hi];
    simpl; [|left; reflexivity].
  match goal with
  | |- context [match ?rc with Return _ => _ | Throw _ => _ end] =>
      destruct rc as [[]|e] eqn:Hrc
  end; [|left; reflexivity].
  right. exists opt. split; [reflexivity|]. split; [exact Hi|]. split.
  - intros z ->. rewrite Hi in Hrc. simpl in Hrc.
    destruct (Z.gtb_spec z (max opt)); [discriminate|].
    destruct (Z.ltb_spec z (min opt)); [discriminate|]. lia.
  - destruct (invoke (change_handler opt) v); reflexivity.
Qed.

Lemma reachable_spin_value w :
  reachable w ->
  forall name opt z,
    s_options w !! name = Some opt -> current opt = Int64 z ->
    default_value opt = Int64 z \/ min opt <= z <= max opt.
Proof.
  induction 1 as [|n f w Hw IH|n d f w Hw IH|n d lo hi f w Hw IH
                  |n d f w Hw IH|n v w Hw IH]; intros name opt z Hl Hc.
  - simpl in Hl. rewrite lookup_empty in Hl. discriminate.
  - simpl in Hl. destruct (decide (n = name)) as [->|Hne].
    + rewrite lookup_insert_eq in Hl. inversion Hl; subst opt. discriminate.
    + rewrite lookup_insert_ne in Hl by exact Hne. eauto.
  - simpl in Hl. destruct (decide (n = name)) as [->|Hne].
    + rewrite lookup_insert_eq in Hl. inversion Hl; subst opt. discriminate.
    + rewrite lookup_insert_ne in Hl by exact Hne. eauto.
  - simpl in Hl. destruct (decide (n = name)) as [->|Hne].
    + rewrite lookup_insert_eq in Hl. inversion Hl; subst opt.
      left. exact Hc.
    + rewrite lookup_insert_ne in Hl by exact Hne. eauto.
  - simpl in Hl. destruct (decide (n = name)) as [->|Hne].
    + rewrite lookup_insert_eq in Hl. inversion Hl; subst opt. discriminate.
    + rewrite lookup_insert_ne in Hl by exact Hne. eauto.
  - destruct (set_option_table_checked n v w)
      as [Heq|(o & Ho & Hi & Hrange & Heq)]; rewrite Heq in Hl; [eauto|].
    destruct (decide (n = name)) as [->|Hne].
    + rewrite lookup_insert_eq in Hl. inversion Hl; subst opt.
      simpl in *. right. apply Hrange. exact Hc.
    + rewrite lookup_insert_ne in Hl by exact Hne. eauto.
Qed.

(** X9: in a table built by registrations and [set_option] calls,
    [get_spin_option] on a spin option returns, and the value it returns
    is the default value given at registration or lies within the bounds
    of the option. *)
Theorem get_spin_option_default_or_in_range name w opt :
  reachable w -> s_options w !! name = Some opt -> type opt = Spin ->
  exists z,
    get_spin_option name w = Return z
    /\ (default_value opt = Int64 z \/ min opt <= z <= max opt).
Proof.
  intros Hw Hl Ht.
  destruct (spin_option_shape opt (reachable_well_formed w Hw name opt Hl) Ht)
    as (z & f & Hc & _).
  exists z. split.
  - unfold get_spin_option, get_option. rewrite Hl, Hc. reflexivity.
  - exact (reachable_spin_value w Hw name opt z Hl Hc).
Qed.

Lemma get_spin_option_default_or_in_range_witness :
  let w := fst (set_option "Hash" (Int64 64)
                  (register_spin_option "Hash" 32 1 1024 0%nat empty_world)) in
  exists z, get_spin_option "Hash" w = Return z
            /\ (Int64 32 = Int64 z \/ 1 <= z <= 1024).
Proof.
  intros w.
  apply (get_spin_option_default_or_in_range "Hash" w
           {| current := Int64 64; change_handler := spin_lambda 0%nat;
              default_value := Int64 32; min := 1; max := 1024 |}).
  - apply reachable_set, reachable_spin, reachable_empty.
  - reflexivity.
  - reflexivity.
Defined.

(** X10: registration writes the table without a check of the bounds. A
    spin option registered with a default below its minimum (or above
    its maximum) is accepted and holds that default as its current
    value, and [set_option] then refuses that very value. *)
Theorem register_spin_option_unchecked name d lo hi f w :
  d < lo \/ hi < d ->
  get_spin_option name (register_spin_option name d lo hi f w) = Return d
  /\ exists what,
       set_option name (Int64 d) (register_spin_option name d lo hi f w)
       = (register_spin_option name d lo hi f w, Throw (InputError what)).
Proof.
  intros Hout. split.
  - unfold get_spin_option, get_option, register_spin_option. simpl.
    rewrite lookup_insert_eq. reflexivity.
  - unfold set_option, register_spin_option. simpl.
    rewrite lookup_insert_eq. simpl.
    destruct (Z.gtb_spec d hi); [eexists; reflexivity|].
    destruct (Z.ltb_spec d lo); [eexists; reflexivity|]. lia.
Qed.

Lemma register_spin_option_unchecked_witness :
  get_spin_option "Depth" (register_spin_option "Depth" 0 1 64 0%nat
                             empty_world) = Return 0.
Proof.
  apply (register_spin_option_unchecked "Depth" 0 1 64 0%nat empty_world).
  left. lia.
Defined.

#[local] Instance key_le_total : Total key_le.
Proof. intros a b. unfold key_le. apply String.leb_total. Qed.

Lemma Sorted_map_names (l : list (string * Option)) :
  Sorted key_le l ->
  Sorted (fun a b => String.leb (info_name a) (info_name b) = true)
         (map (fun p => make_OptionInfo (fst p) (snd p)) l).
Proof.
  induction 1 as [|x l Hs IH Hhd]; simpl; constructor.
  - exact IH.
  - destruct Hhd as [|y l Hxy]; simpl; constructor. exact Hxy.
Qed.

Lemma length_get_all_options w :
  length (get_all_options w) = size (s_options w).
Proof.
  unfold get_all_options.
  rewrite length_map, merge_sort_Permutation. apply length_map_to_list.
Qed.

(** X11: listing and describing agree. An [OptionInfo] is in the list of
    [get_all_options] exactly when [get_option_info] returns it for its
    name; the list has one entry per registered option, no name twice,
    and the names are in non-decreasing order. *)
Theorem get_all_options_describe w :
  (forall opt_info,
      In opt_info (get_all_options w)
      <-> get_option_info (info_name opt_info) w = Return opt_info)
  /\ length (get_all_options w) = size (s_options w)
  /\ NoDup (map info_name (get_all_options w))
  /\ Sorted (fun a b => String.leb (info_name a) (info_name b) = true)
            (get_all_options w).
Proof.
  split; [|split; [|split]].
  - intros opt_info. split.
    + unfold get_all_options. intros Hin.
      apply in_map_iff in Hin as ([n o] & <- & Hno).
      apply list_elem_of_In in Hno.
      rewrite merge_sort_Permutation in Hno.
      apply elem_of_map_to_list in Hno.
      unfold get_option_info. simpl. rewrite Hno. reflexivity.
    + unfold get_option_info.
      destruct (s_options w !! info_name opt_info) as [o|] eqn:Hl;
        [|discriminate].
      intros [= <-]. apply get_all_options_complete. exact Hl.
  - apply length_get_all_options.
  - unfold get_all_options. rewrite map_map. simpl.
    pose proof (NoDup_fst_map_to_list (s_options w)) as Hnd.
    rewrite <- (merge_sort_Permutation key_le) in Hnd.
    exact Hnd.
  - apply Sorted_map_names, Sorted_merge_sort. exact _.
Qed.

(** ** The uci handler, continued *)

Lemma option_lines_each options :
  (forall opt, In opt options -> returns (option_line opt)) ->
  exists lines,
    option_lines options = Return lines
    /\ Forall2 (fun opt line => option_line opt = Return line) options lines.
Proof.
  induction options as [|o options IH]; intros Hall.
  - exists []. split; [reflexivity|constructor].
  - destruct (Hall o (or_introl eq_refl)) as [l Hl].
    destruct IH as (ls & Hls & Hf).
    { intros opt Hopt. apply Hall. right. exact Hopt. }
    exists (l :: ls). split.
    + simpl. rewrite Hl, Hls. reflexivity.
    + constructor; assumption.
Qed.

(** X12: on a table built by registrations and [set_option] calls the
    uci handler throws nothing. It prints the [id name] line, the
    [id author] line when an author is given, then exactly one line per
    registered option, in the order of the names, and [uciok] last. *)
Theorem uci_handler_output engine_name author_name w :
  reachable w ->
  exists option_part,
    uci_handler engine_name author_name w
    = Return ((if is_empty engine_name then "id name Unnamed Engine"
               else "id name " ++ engine_name)
              :: app (if is_empty author_name then []
                      else ["id author " ++ author_name])
                     (app option_part ["uciok"]))
    /\ length option_part = size (s_options w)
    /\ Forall2 (fun opt line => option_line opt = Return line)
               (get_all_options w) option_part.
Proof.
  intros Hw.
  destruct (option_lines_each (get_all_options w)) as (ls & Hls & Hf).
  { intros o Ho. unfold get_all_options in Ho.
    apply in_map_iff in Ho as ([n o'] & <- & Hno).
    apply list_elem_of_In in Hno.
    rewrite merge_sort_Permutation in Hno.
    apply elem_of_map_to_list in Hno.
    destruct (option_line_well_formed n o') as [rest Hrest].
    - exact (reachable_well_formed w Hw n o' Hno).
    - eexists. exact Hrest. }
  exists ls. split; [|split].
  - unfold uci_handler. rewrite Hls. simpl.
    destruct (is_empty engine_name), (is_empty author_name); reflexivity.
  - apply Forall2_length in Hf. rewrite <- Hf.
    apply length_get_all_options.
  - exact Hf.
Qed.

Lemma uci_handler_output_witness :
  exists option_part,
    uci_handler "" "Me"
      (register_check_option "Ponder" false 1%nat
         (register_spin_option "Hash" 32 1 1024 0%nat empty_world))
    = Return ("id name Unnamed Engine"
              :: app ["id author Me"] (app option_part ["uciok"]))
    /\ length option_part = 2%nat.
Proof.
  destruct (uci_handler_output "" "Me"
              (register_check_option "Ponder" false 1%nat
                 (register_spin_option "Hash" 32 1 1024 0%nat empty_world)))
    as (part & Hout & Hlen & _).
  - apply reachable_check, reachable_spin, reachable_empty.
  - exists part. split; [exact Hout|]. rewrite Hlen. reflexivity.
Defined.

(** ** The setoption handler *)

Lemma stops_not_space_ws ws s :
  ws <> "" -> all_of isspace ws = true -> stops not_space (ws ++ s) = true.
Proof.
  destruct ws as [|c ws]; [contradiction|]. simpl. intros _ H.
  apply andb_true_iff in H as [H _]. unfold not_space. rewrite H.
  reflexivity.
Qed.

(** [read_word] on a reader that has white space, a word and a tail in
    front of the cursor returns the word and leaves the tail in front of
    the cursor. *)
Lemma read_word_step r ws word tail :
  peek_remainder r = ws ++ word ++ tail ->
  all_of isspace ws = true ->
  word <> "" -> all_of not_space word = true ->
  stops not_space tail = true ->
  snd (read_word r) = word /\ peek_remainder (fst (read_word r)) = tail.
Proof.
  intros Hrem Hws Hne Hw Ht.
  rewrite (read_word_run r ws word tail) by assumption. simpl.
  split; [reflexivity|].
  unfold peek_remainder in *. simpl.
  rewrite <- Nat.add_assoc, substr_from_add, Hrem.
  rewrite <- length_append, <- append_assoc. apply substr_from_append.
Qed.

(** The word [read_word] returns depends on the text in front of the
    cursor only. *)
Lemma read_while_of_remainder pred r :
  snd (read_while pred r)
  = snd (read_while pred (new_ArgReader (peek_remainder r)))
  /\ peek_remainder (fst (read_while pred r))
     = peek_remainder
         (fst (read_while pred (new_ArgReader (peek_remainder r)))).
Proof.
  unfold read_while, finished, peek_remainder. simpl.
  destruct (Nat.leb_spec (String.length (m_arg_str r)) (m_pos r)) as [Hf|Hf].
  - rewrite substr_from_past_end by exact Hf. simpl.
    rewrite substr_from_past_end by exact Hf. split; reflexivity.
  - rewrite length_substr_from.
    destruct (Nat.leb_spec (String.length (m_arg_str r) - m_pos r) 0);
      [lia|]. simpl.
    rewrite substr_via_substr_from, substr_from_add. split; reflexivity.
Qed.

Lemma read_word_of_remainder r :
  snd (read_word r) = snd (read_word (new_ArgReader (peek_remainder r))).
Proof.
  unfold read_word, skip_whitespace.
  destruct (read_while_of_remainder isspace r) as [_ H1].
  destruct (read_while_of_remainder not_space (fst (read_while isspace r)))
    as [H2 _].
  destruct (read_while_of_remainder not_space
              (fst (read_while isspace (new_ArgReader (peek_remainder r)))))
    as [H3 _].
  change (read_until isspace) with (read_while not_space).
  rewrite H2, H3, H1. reflexivity.
Qed.

(** The handler on a line that has the two keywords and a registered
    name. *)
Lemma setoption_handler_on_line w ws0 ws1 ws2 name rest opt :
  all_of isspace ws0 = true ->
  ws1 <> "" -> all_of isspace ws1 = true ->
  ws2 <> "" -> all_of isspace ws2 = true ->
  name <> "" -> all_of not_space name = true ->
  stops not_space rest = true ->
  s_options w !! name = Some opt ->
  setoption_handler
    (ws0 ++ "name" ++ ws1 ++ name ++ ws2 ++ "value" ++ rest) w
  = match type opt with
    | Button => set_option name Monostate w
    | Spin =>
        match stoll (snd (read_word (new_ArgReader rest))) with
        | Return v => set_option name (Int64 v) w
        | Throw e => (w, Throw e)
        end
    | String_ =>
        set_option name (Str (snd (read_word (new_ArgReader rest)))) w
    | Check =>
        set_option name
          (Bool (String.eqb (snd (read_word (new_ArgReader rest))) "true")) w
    end.
Proof.
  intros Hws0 Hne1 Hws1 Hne2 Hws2 Hnn Hname Hrest Hl.
  unfold setoption_handler.
  set (r0 := new_ArgReader _).
  destruct (read_word_step r0 ws0 "name"
              (ws1 ++ name ++ ws2 ++ "value" ++ rest)) as [Hk1 Hr1];
    auto using stops_not_space_ws; try discriminate.
  destruct (read_word r0) as [r1 k1]. simpl in Hk1, Hr1. subst k1.
  cbn [String.eqb Ascii.eqb Bool.eqb negb].
  change ("name" =? "name")%string with true. cbv iota. simpl negb.
  destruct (read_word_step r1 ws1 name (ws2 ++ "value" ++ rest))
    as [Hk2 Hr2]; auto using stops_not_space_ws.
  destruct (read_word r1) as [r2 k2]. simpl in Hk2, Hr2. subst k2.
  destruct name as [|c name'] eqn:En; [contradiction|]. rewrite <- En in *.
  replace (is_empty name) with false by (rewrite En; reflexivity).
  rewrite Hl.
  destruct (read_word_step r2 ws2 "value" rest) as [Hk3 Hr3];
    auto; try discriminate.
  destruct (read_word r2) as [r3 k3]. simpl in Hk3, Hr3. subst k3.
  change ("value" =? "value")%string with true. simpl negb. cbv iota.
  pose proof (read_word_of_remainder r3) as Hv. rewrite Hr3 in Hv.
  destruct (read_word r3) as [r4 value]. simpl in Hv. subst value.
  reflexivity.
Qed.

(** X13: the setoption handler on a line [name <name> value <rest>] with
    a registered name (one word) is [set_option] on that name with the
    first word of [rest], converted by the kind of the option: nothing
    for a button, [std::stoll] for a spin option (whose exceptions leave
    the handler as they are), the word itself for a string option, the
    comparison with [true] for a check option. What follows the first
    word of the value is ignored. *)
Theorem setoption_handler_line w ws0 ws1 ws2 name rest opt :
  all_of isspace ws0 = true ->
  ws1 <> "" -> all_of isspace ws1 = true ->
  ws2 <> "" -> all_of isspace ws2 = true ->
  name <> "" -> all_of not_space name = true ->
  stops not_space rest = true ->
  s_options w !! name = Some opt ->
  setoption_handler
    (ws0 ++ "name" ++ ws1 ++ name ++ ws2 ++ "value" ++ rest) w
  = match type opt with
    | Button => set_option name Monostate w
    | Spin =>
        match stoll (snd (read_word (new_ArgReader rest))) with
        | Return v => set_option name (Int64 v) w
        | Throw e => (w, Throw e)
        end
    | String_ =>
        set_option name (Str (snd (read_word (new_ArgReader rest)))) w
    | Check =>
        set_option name
          (Bool (String.eqb (snd (read_word (new_ArgReader rest))) "true")) w
    end.
Proof. apply setoption_handler_on_line. Qed.

Lemma setoption_handler_line_witness :
  let w := register_string_option "Book" "a.bin" 4%nat empty_world in
  setoption_handler "name Book value my book.bin" w
  = set_option "Book" (Str "my") w.
Proof.
  intros w.
  apply (setoption_handler_line w "" " " " " "Book" " my book.bin"
           {| current := Str "a.bin"; change_handler := string_lambda 4%nat;
              default_value := Str "a.bin"; min := 0; max := 0 |});
    first [reflexivity | discriminate].
Defined.

Lemma setoption_handler_throw_world ctx w e :
  snd (setoption_handler ctx w) = Throw e ->
  e <> std_bad_variant_access ->
  fst (setoption_handler ctx w) = w.
Proof.
  unfold setoption_handler.
  destruct (read_word (new_ArgReader ctx)) as [r1 k1].
  destruct (negb (k1 =? "name")%string); [reflexivity|].
  destruct (read_word r1) as [r2 name].
  destruct (is_empty name); [reflexivity|].
  destruct (s_options w !! name) as [opt|]; [|reflexivity].
  destruct (read_word r2) as [r3 k3].
  destruct (negb (k3 =? "value")%string); [reflexivity|].
  destruct (read_word r3) as [r4 value].
  destruct (type opt).
  - intros H1 H2. apply (set_option_throw_world _ _ _ _ H1 H2).
  - destruct (stoll value); [|reflexivity].
    intros H1 H2. apply (set_option_throw_world _ _ _ _ H1 H2).
  - intros H1 H2. apply (set_option_throw_world _ _ _ _ H1 H2).
  - intros H1 H2. apply (set_option_throw_world _ _ _ _ H1 H2).
Qed.



(** X15: on a spin option, a value word that [std::stoll] does not
    convert makes the setoption handler leave with the exception of
    [std::stoll], [std::invalid_argument] or [std::out_of_range], and
    not with an [InputError]; the world is unchanged. A missing value
    word is such a case. *)
Theorem setoption_handler_spin_not_a_number w ws0 ws1 ws2 name rest opt :
  all_of isspace ws0 = true ->
  ws1 <> "" -> all_of isspace ws1 = true ->
  ws2 <> "" -> all_of isspace ws2 = true ->
  name <> "" -> all_of not_space name = true ->
  stops not_space rest = true ->
  s_options w !! name = Some opt -> type opt = Spin ->
  (forall v, stoll (snd (read_word (new_ArgReader rest))) <> Return v) ->
  (setoption_handler
     (ws0 ++ "name" ++ ws1 ++ name ++ ws2 ++ "value" ++ rest) w
   = (w, Throw (std_invalid_argument "stoll"))
   \/ setoption_handler
        (ws0 ++ "name" ++ ws1 ++ name ++ ws2 ++ "value" ++ rest) w
      = (w, Throw (std_out_of_range "stoll")))
  /\ (all_of isspace rest = true ->
      setoption_handler
        (ws0 ++ "name" ++ ws1 ++ name ++ ws2 ++ "value" ++ rest) w
      = (w, Throw (std_invalid_argument "stoll"))).
Proof.
  intros Hws0 Hne1 Hws1 Hne2 Hws2 Hnn Hname Hrest Hl Ht Hnot.
  rewrite (setoption_handler_on_line w ws0 ws1 ws2 name rest opt)
    by assumption.
  rewrite Ht.
  split.
  - destruct (stoll_outcomes (snd (read_word (new_ArgReader rest))))
      as [(v & Hv & _)|[Hv|Hv]].
    + exfalso. exact (Hnot v Hv).
    + left. rewrite Hv. reflexivity.
    + right. rewrite Hv. reflexivity.
  - intros Hall.
    destruct (read_word_parts (new_ArgReader rest))
      as (ws & _ & Hrem & Hw & _).
    change (peek_remainder (new_ArgReader rest)) with rest in Hrem.
    rewrite Hrem, !all_of_append in Hall.
    apply andb_true_iff in Hall as [_ Hall].
    apply andb_true_iff in Hall as [Hall _].
    destruct (snd (read_word (new_ArgReader rest))) as [|c word].
    + reflexivity.
    + simpl in Hall, Hw. unfold not_space in Hw.
      destruct (isspace c); discriminate.
Qed.

Lemma setoption_handler_spin_not_a_number_witness :
  let w := register_spin_option "Hash" 32 1 1024 0%nat empty_world in
  setoption_handler "name Hash value lots" w
  = (w, Throw (std_invalid_argument "stoll"))
  \/ setoption_handler "name Hash value lots" w
     = (w, Throw (std_out_of_range "stoll")).
Proof.
  intros w.
  apply (setoption_handler_spin_not_a_number w "" " " " " "Hash" " lots"
           {| current := Int64 32; change_handler := spin_lambda 0%nat;
              default_value := Int64 32; min := 1; max := 1024 |});
    first [reflexivity | discriminate | (intros v; vm_compute; discriminate)].
Defined.

(** ** Loops, continued *)

(** A loop whose steps keep an invariant and decrease a measure ends
    within any budget above the measure of its first state. *)
Lemma while_loop_ends {S R : Type} (step : S -> loop_step S R)
      (inv : S -> Prop) (measure : S -> nat) :
  (forall s s', inv s -> step s = Continue s' ->
                inv s' /\ (measure s' < measure s)%nat) ->
  forall budget s,
    inv s -> (measure s < budget)%nat ->
    exists r, while_loop step budget s = Some r.
Proof.
  intros Hstep. induction budget as [|budget IH]; intros s Hi Hm.
  - lia.
  - simpl. destruct (step s) as [s'|r] eqn:Hs; [|eauto].
    destruct (Hstep s s' Hi Hs) as [Hi' Hm']. apply IH; [exact Hi'|lia].
Qed.

(** What holds of every state of a loop and of the value of every exit
    holds of its result. *)
Lemma while_loop_result {S R : Type} (step : S -> loop_step S R)
      (inv : S -> Prop) (post : R -> Prop) :
  (forall s s', inv s -> step s = Continue s' -> inv s') ->
  (forall s r, inv s -> step s = Break r -> post r) ->
  forall budget s r,
    inv s -> while_loop step budget s = Some r -> post r.
Proof.
  intros Hc Hb. induction budget as [|budget IH]; intros s r Hi Hr.
  - discriminate.
  - simpl in Hr. destruct (step s) as [s'|r'] eqn:Hs.
    + eapply IH; [eapply Hc; eassumption|exact Hr].
    + injection Hr as <-. eapply Hb; eassumption.
Qed.

Lemma remaining_after_advance r r' :
  in_bounds r' -> (m_pos r < m_pos r')%nat ->
  m_arg_str r' = m_arg_str r ->
  (remaining r' < remaining r)%nat.
Proof. unfold in_bounds, remaining. intros Hb Hlt Hs. rewrite Hs in *. lia. Qed.

Lemma remaining_after_move r r' :
  (m_pos r <= m_pos r')%nat -> m_arg_str r' = m_arg_str r ->
  (remaining r' <= remaining r)%nat.
Proof. unfold remaining. intros Hle ->. lia. Qed.

Lemma read_word_remaining r :
  in_bounds r ->
  in_bounds (fst (read_word r))
  /\ (remaining (fst (read_word r)) <= remaining r)%nat
  /\ (snd (read_word r) <> "" ->
      (remaining (fst (read_word r)) < remaining r)%nat)
  /\ (snd (read_word r) = "" -> remaining (fst (read_word r)) = 0%nat).
Proof.
  intros Hb.
  destruct (read_word_in_bounds r Hb) as [Hb' Hle].
  destruct (read_word_parts r) as (_ & _ & _ & _ & _ & Hs & _ & He).
  split; [exact Hb'|]. split; [|split].
  - apply remaining_after_move; assumption.
  - intros Hne. apply remaining_after_advance; try assumption.
    apply read_word_nonempty_advances. exact Hne.
  - intros Hempty. specialize (He Hempty).
    apply (f_equal String.length) in He. unfold peek_remainder in He.
    rewrite length_substr_from in He. exact He.
Qed.

Lemma read_int_remaining r r' v :
  in_bounds r -> read_int r = (r', Return v) ->
  in_bounds r' /\ (remaining r' < remaining r)%nat.
Proof.
  intros Hb Hr.
  destruct (read_int_in_bounds r Hb) as (Hb' & _ & Hs).
  rewrite Hr in Hb', Hs. simpl in Hb', Hs.
  split; [exact Hb'|].
  apply remaining_after_advance; try assumption.
  unfold read_int in Hr.
  destruct (try_read_int_by_word r)
    as [(v' & _ & Ht & _ & Hp)|[(_ & Ht)|(_ & Ht)]];
    rewrite Ht in Hr; try discriminate.
  injection Hr as <- _. exact Hp.
Qed.

(** ** The go handler, continued *)

Lemma go_assign_continues assign reader go_args st' :
  go_assign assign reader go_args = Continue st' ->
  exists r' v,
    read_int reader = (r', Return v)
    /\ st' = (fst (read_word r'), snd (read_word r'), assign v go_args).
Proof.
  unfold go_assign.
  destruct (read_int reader) as [r' [v|e]]; [|discriminate].
  destruct (read_word r') as [r'' w'] eqn:Hw.
  intros [= <-]. exists r', v. rewrite Hw. split; reflexivity.
Qed.

(** The two ways an evaluation of the go loop goes on: the [continue] of
    the [infinite] branch, which changes nothing, or an assignment of a
    number to a field with the flag cleared. *)
Lemma go_step_continues reader word go_args st' :
  go_step (reader, word, go_args) = Continue st' ->
  (word = "infinite" /\ infinite go_args = true
   /\ st' = (reader, word, go_args))
  \/ (word <> "" /\
      exists assign,
        (forall v a, infinite (assign v a) = infinite a)
        /\ go_assign assign reader (set_infinite false go_args)
           = Continue st').
Proof.
  unfold go_step.
  destruct word as [|c word'] eqn:Ew; [discriminate|]. rewrite <- Ew.
  replace (is_empty word) with false by (rewrite Ew; reflexivity).
  destruct (String.eqb_spec word "infinite") as [Hi|Hi].
  - destruct (infinite go_args) eqn:Hinf; simpl; [|discriminate].
    intros [= <-]. left. auto.
  - intros H. right. split; [congruence|].
    repeat match type of H with
           | (if ?b then _ else _) = _ => destruct b
           end;
      try discriminate;
      eexists; (split; [|exact H]); intros v a; reflexivity.
Qed.

Lemma go_step_decreases reader word go_args st' :
  in_bounds reader ->
  word <> "infinite" \/ infinite go_args = false ->
  go_step (reader, word, go_args) = Continue st' ->
  in_bounds (fst (fst st'))
  /\ infinite (snd st') = false
  /\ (words_left (fst (fst st')) (snd (fst st')) < words_left reader word)%nat.
Proof.
  intros Hb Hinv Hstep.
  destruct (go_step_continues _ _ _ _ Hstep)
    as [(Hw & Hinf & _)|(Hne & assign & Hkeep & Hassign)].
  - destruct Hinv; congruence.
  - destruct (go_assign_continues _ _ _ _ Hassign) as (r' & v & Hr & ->).
    simpl.
    destruct (read_int_remaining reader r' v Hb Hr) as [Hb' Hlt].
    destruct (read_word_remaining r' Hb') as (Hb'' & Hle & _).
    split; [exact Hb''|]. split; [rewrite Hkeep; reflexivity|].
    unfold words_left.
    destruct word; [contradiction|]. simpl.
    destruct (is_empty (snd (read_word r'))); lia.
Qed.

Lemma length_ge_remaining r : (remaining r <= String.length (m_arg_str r))%nat.
Proof. unfold remaining. lia. Qed.

(** X16: the go handler reaches its end, by [handler(go_args)] or by an
    exception, on every argument text whose first word is not
    [infinite], within a number of iterations bounded by the length of
    the text; on every argument text whose first word is [infinite] it
    never does, whatever follows that word. *)
Theorem go_handler_ends_unless_infinite ctx :
  if String.eqb (snd (read_word (new_ArgReader ctx))) "infinite"
  then forall budget, go_handler budget ctx = None
  else exists res, go_handler (String.length ctx + 2) ctx = Some res.
Proof.
  unfold go_handler.
  assert (Hb0 : in_bounds (new_ArgReader ctx))
    by (unfold in_bounds; simpl; lia).
  destruct (read_word_remaining _ Hb0) as (Hb & Hle & _).
  destruct (read_word (new_ArgReader ctx)) as [reader word].
  simpl in *.
  destruct (String.eqb_spec word "infinite") as [->|Hne].
  - intros budget. apply while_loop_stuck, go_step_infinite. reflexivity.
  - apply (while_loop_ends go_step
             (fun st => in_bounds (fst (fst st))
                        /\ (snd (fst st) <> "infinite"
                            \/ infinite (snd st) = false))
             (fun st => words_left (fst (fst st)) (snd (fst st)))).
    + intros [[r w] a] st' [Hbr Hinv] Hstep. simpl in *.
      destruct (go_step_decreases r w a st' Hbr Hinv Hstep)
        as (H1 & H2 & H3).
      auto.
    + simpl. auto.
    + simpl. unfold words_left, remaining in *. simpl in *.
      destruct (is_empty word); lia.
Qed.

Lemma read_int_throws r r' e :
  read_int r = (r', Throw e) ->
  e = InputError "Expected an integer number."
  \/ e = std_out_of_range "stoll".
Proof.
  unfold read_int.
  destruct (try_read_int_by_word r)
    as [(v & _ & Ht & _)|[(_ & Ht)|(_ & Ht)]]; rewrite Ht.
  - discriminate.
  - intros [= _ <-]. left. reflexivity.
  - intros [= _ <-]. right. reflexivity.
Qed.

Lemma go_assign_breaks assign reader go_args res :
  go_assign assign reader go_args = Break res ->
  res = Throw (InputError "Expected an integer number.")
  \/ res = Throw (std_out_of_range "stoll").
Proof.
  unfold go_assign.
  destruct (read_int reader) as [r' [v|e]] eqn:Hr.
  - destruct (read_word r'). discriminate.
  - intros [= <-]. destruct (read_int_throws _ _ _ Hr) as [-> | ->]; auto.
Qed.

(** The ways an evaluation of the go loop leaves the loop. *)
Lemma go_step_breaks reader word go_args res :
  go_step (reader, word, go_args) = Break res ->
  (word = "" /\ res = Return go_args)
  \/ res = Throw (InputError
                    "Unexpected infinite to go when limits were specified.")
  \/ res = Throw (InputError ("Unexpected argument for go: " ++ word))
  \/ res = Throw (InputError "Expected an integer number.")
  \/ res = Throw (std_out_of_range "stoll").
Proof.
  unfold go_step.
  destruct word as [|c word'] eqn:Ew.
  - intros [= <-]. left. auto.
  - rewrite <- Ew. replace (is_empty word) with false
      by (rewrite Ew; reflexivity).
    destruct (String.eqb word "infinite").
    + destruct (infinite go_args); simpl; [discriminate|].
      intros [= <-]. right. left. reflexivity.
    + intros H.
      repeat match type of H with
             | (if ?b then _ else _) = _ => destruct b
             end;
        try (apply go_assign_breaks in H; destruct H as [-> | ->];
             right; right; right; auto; fail).
      injection H as <-. right. right. left. reflexivity.
Qed.

Lemma go_handler_outcome budget ctx res :
  go_handler budget ctx = Some res ->
  match res with
  | Return a =>
      (snd (read_word (new_ArgReader ctx)) = "" /\ a = default_GoArgs)
      \/ (snd (read_word (new_ArgReader ctx)) <> "" /\ infinite a = false)
  | Throw e =>
      e = InputError "Unexpected infinite to go when limits were specified."
      \/ e = InputError "Expected an integer number."
      \/ (exists token, e = InputError ("Unexpected argument for go: " ++ token))
      \/ e = std_out_of_range "stoll"
  end.
Proof.
  unfold go_handler.
  destruct (read_word (new_ArgReader ctx)) as [reader0 word0].
  cbn [fst snd]. intros Hrun. pattern res.
  eapply (while_loop_result go_step
            (fun st => st = (reader0, word0, default_GoArgs)
                       \/ (word0 <> "" /\ infinite (snd st) = false)));
    [| | |exact Hrun].
  - intros [[r w] a] st' Hinv Hstep.
    destruct (go_step_continues _ _ _ _ Hstep)
      as [(Hw & Hinf & ->)|(Hne & assign & Hkeep & Hassign)];
      [exact Hinv|].
    destruct (go_assign_continues _ _ _ _ Hassign) as (r' & v & _ & ->).
    right. simpl. rewrite Hkeep. split; [|reflexivity].
    destruct Hinv as [[= _ <- _]|[Hw0 _]]; assumption.
  - intros [[r w] a] r0 Hinv Hstep.
    destruct (go_step_breaks _ _ _ _ Hstep)
      as [[Hw ->]|[->|[->|[->| ->]]]]; eauto 6.
    destruct Hinv as [[= _ <- <-]|[Hw0 Hinf]]; [left|right]; auto.
  - left. reflexivity.
Qed.

(** X17: what the go handler ends with. A record reaches the callback
    either from an argument text without any word, and then it is the
    default record, with [infinite] set; or from a text with words, and
    then [infinite] is cleared. The exceptions are the three
    [InputError]s of the handler and of [read_int], and the
    [std::out_of_range] of a number that does not fit in 64 bits, which
    is not an [InputError]. *)
Theorem go_handler_result budget ctx res :
  go_handler budget ctx = Some res ->
  match res with
  | Return a =>
      (snd (read_word (new_ArgReader ctx)) = "" /\ a = default_GoArgs)
      \/ (snd (read_word (new_ArgReader ctx)) <> "" /\ infinite a = false)
  | Throw e =>
      e = InputError "Unexpected infinite to go when limits were specified."
      \/ e = InputError "Expected an integer number."
      \/ (exists token, e = InputError ("Unexpected argument for go: " ++ token))
      \/ e = std_out_of_range "stoll"
  end.
Proof. apply go_handler_outcome. Qed.

Lemma go_handler_result_witness :
  (snd (read_word (new_ArgReader "nodes 5000")) = ""
   /\ set_nodes 5000 (set_infinite false default_GoArgs) = default_GoArgs)
  \/ (snd (read_word (new_ArgReader "nodes 5000")) <> ""
      /\ infinite (set_nodes 5000 (set_infinite false default_GoArgs))
         = false).
Proof.
  apply (go_handler_result 2 "nodes 5000"
           (Return (set_nodes 5000 (set_infinite false default_GoArgs)))).
  vm_compute. reflexivity.
Defined.

(** ** The position handler, continued *)

Lemma peek_remainder_empty r :
  in_bounds r -> peek_remainder r = "" -> remaining r = 0%nat.
Proof.
  unfold in_bounds, peek_remainder, remaining. intros Hb He.
  apply (f_equal String.length) in He.
  rewrite length_substr_from in He. exact He.
Qed.

Lemma fen_step_decreases reader fen_stream st' :
  in_bounds reader ->
  fen_step (reader, fen_stream) = Continue st' ->
  in_bounds (fst st') /\ (remaining (fst st') < remaining reader)%nat
  /\ exists word, snd st' = fen_stream ++ word ++ " ".
Proof.
  intros Hb. unfold fen_step, finished.
  destruct (Nat.leb_spec (String.length (m_arg_str reader)) (m_pos reader))
    as [Hf|Hf]; [discriminate|].
  match goal with
  | |- context [if ?b then _ else _] => destruct b; [discriminate|]
  end.
  rewrite read_word_after_skip.
  destruct (read_word_remaining reader Hb) as (Hb' & Hle & Hlt & Hz).
  destruct (read_word reader) as [r' w]. simpl in *.
  intros [= <-]. simpl. split; [exact Hb'|]. split; [|eauto].
  destruct w as [|c w].
  - rewrite Hz by reflexivity. unfold remaining. lia.
  - apply Hlt. discriminate.
Qed.

Lemma moves_step_decreases reader word acc st' :
  in_bounds reader ->
  moves_step (reader, word, acc) = Continue st' ->
  in_bounds (fst (fst st'))
  /\ (words_left (fst (fst st')) (snd (fst st')) < words_left reader word)%nat.
Proof.
  intros Hb. unfold moves_step.
  destruct word as [|c word]; [discriminate|]. cbn [is_empty].
  destruct (read_word_remaining reader Hb) as (Hb' & Hle & Hlt & _).
  destruct (read_word reader) as [r' w']. simpl in *.
  intros [= <-]. simpl. split; [exact Hb'|].
  unfold words_left. simpl. destruct w' as [|c' w']; simpl; [lia|].
  assert ((remaining r' < remaining reader)%nat)
    by (apply Hlt; discriminate).
  lia.
Qed.

Lemma fen_loop_ends reader budget :
  in_bounds reader -> (remaining reader < budget)%nat ->
  exists reader' fen_text,
    while_loop fen_step budget (reader, "") = Some (reader', fen_text)
    /\ in_bounds reader' /\ m_arg_str reader' = m_arg_str reader.
Proof.
  intros Hb Hm.
  destruct (while_loop_ends fen_step (fun st => in_bounds (fst st))
              (fun st => remaining (fst st))) with (budget := budget)
              (s := (reader, "")) as [[r' f] Hr]; auto.
  - intros [r f] st' Hbr Hstep.
    destruct (fen_step_decreases r f st' Hbr Hstep) as (H1 & H2 & _). auto.
  - exists r', f. split; [exact Hr|].
    refine (while_loop_result fen_step
              (fun st => in_bounds (fst st)
                         /\ m_arg_str (fst st) = m_arg_str reader)
              (fun res => in_bounds (fst res)
                          /\ m_arg_str (fst res) = m_arg_str reader)
              _ _ budget (reader, "") (r', f) _ Hr); [| |auto].
    + intros [r f0] st' [Hbr Hs] Hstep.
      destruct (fen_step_decreases r f0 st' Hbr Hstep) as (H1 & _ & _).
      split; [exact H1|].
      unfold fen_step in Hstep.
      destruct (finished r); [discriminate|].
      match type of Hstep with
      | (if ?b then _ else _) = _ => destruct b; [discriminate|]
      end.
      rewrite read_word_after_skip in Hstep.
      destruct (read_word_parts r) as (_ & _ & _ & _ & _ & Hs' & _).
      destruct (read_word r) as [r2 w]. injection Hstep as <-.
      simpl in *. congruence.
    + intros [r f0] res [Hbr Hs] Hstep.
      unfold fen_step in Hstep.
      destruct (finished r); [injection Hstep as <-; auto|].
      match type of Hstep with
      | (if ?b then _ else _) = _ => destruct b
      end.
      * injection Hstep as <-. simpl.
        pose proof (skip_whitespace_consumes r) as Hc.
        split; [exact (consumes_in_bounds _ _ _ _ Hc Hbr)|].
        destruct Hc as (Hs1 & _). simpl in Hs. congruence.
      * destruct (read_word (skip_whitespace r)). discriminate.
Qed.

(** X18: the position handler always reaches its end, by
    [handler(args)] or by an exception, within a number of iterations
    bounded by the length of the argument text. *)
Theorem position_handler_ends ctx :
  exists res, position_handler (String.length ctx + 2) ctx = Some res.
Proof.
  unfold position_handler.
  assert (Hb0 : in_bounds (new_ArgReader ctx))
    by (unfold in_bounds; simpl; lia).
  destruct (read_word_remaining _ Hb0) as (Hb & Hle & _).
  destruct (read_word_parts (new_ArgReader ctx))
    as (_ & _ & _ & _ & _ & Hs & _).
  destruct (read_word (new_ArgReader ctx)) as [reader word]. simpl in *.
  assert (Hmoves : forall r fen_text,
             in_bounds r -> m_arg_str r = ctx ->
             exists res,
               (let '(reader, word) := read_word r in
                if is_empty word then
                  Some (Return {| fen := fen_text; moves := [] |})
                else if negb (String.eqb word "moves") then
                  Some (Throw (InputError
                                 ("Unexpected argument to position: " ++ word)))
                else
                  let '(reader, word) := read_word reader in
                  match while_loop moves_step (String.length ctx + 2)
                                   (reader, word, []) with
                  | Some ms => Some (Return {| fen := fen_text; moves := ms |})
                  | None => None
                  end) = Some res).
  { intros r fen_text Hbr Hsr.
    destruct (read_word_remaining r Hbr) as (Hb1 & _).
    destruct (read_word_parts r) as (_ & _ & _ & _ & _ & Hs1 & _).
    destruct (read_word r) as [r1 w1]. simpl in *.
    destruct (is_empty w1); [eauto|].
    destruct (negb (w1 =? "moves")%string); [eauto|].
    destruct (read_word_remaining r1 Hb1) as (Hb2 & _).
    destruct (read_word_parts r1) as (_ & _ & _ & _ & _ & Hs2 & _).
    destruct (read_word r1) as [r2 w2]. simpl in *.
    destruct (while_loop_ends moves_step
                (fun st => in_bounds (fst (fst st)))
                (fun st => words_left (fst (fst st)) (snd (fst st))))
      with (budget := (String.length ctx + 2)%nat) (s := (r2, w2, @nil string))
      as [ms Hms].
    - intros [[r' w'] acc] st' Hbr' Hstep.
      exact (moves_step_decreases r' w' acc st' Hbr' Hstep).
    - exact Hb2.
    - simpl. unfold words_left.
      pose proof (length_ge_remaining r2) as Hlen.
      rewrite Hs2, Hs1, Hsr in Hlen.
      destruct (is_empty w2); lia.
    - rewrite Hms. eauto. }
  destruct (String.eqb word "startpos").
  - apply Hmoves; assumption.
  - destruct (String.eqb word "fen").
    + destruct (fen_loop_ends reader (String.length ctx + 2) Hb)
        as (r' & f & Hloop & Hb' & Hs').
      { pose proof (length_ge_remaining reader) as Hlen.
        rewrite Hs in Hlen. simpl in Hlen. lia. }
      rewrite Hloop. apply Hmoves; [exact Hb'|]. rewrite Hs', Hs.
      reflexivity.
    + destruct (is_empty word); eauto.
Qed.

Lemma fen_loop_text budget reader res :
  while_loop fen_step budget (reader, "") = Some res ->
  snd res = "" \/ exists t, snd res = t ++ " ".
Proof.
  intros Hrun.
  refine (while_loop_result fen_step
            (fun st => snd st = "" \/ exists t, snd st = t ++ " ")
            (fun res => snd res = "" \/ exists t, snd res = t ++ " ")
            _ _ budget (reader, "") res _ Hrun).
  - intros [r f] st' _ Hstep. unfold fen_step in Hstep.
    destruct (finished r); [discriminate|].
    match type of Hstep with
    | (if ?b then _ else _) = _ => destruct b; [discriminate|]
    end.
    destruct (read_word (skip_whitespace r)) as [r2 w].
    injection Hstep as <-. right. exists (f ++ w).
    simpl. rewrite append_assoc. reflexivity.
  - intros [r f] res' Hinv Hstep. unfold fen_step in Hstep.
    destruct (finished r); [injection Hstep as <-; exact Hinv|].
    match type of Hstep with
    | (if ?b then _ else _) = _ => destruct b
    end.
    + injection Hstep as <-. exact Hinv.
    + destruct (read_word (skip_whitespace r)). discriminate.
  - left. reflexivity.
Qed.

Lemma moves_loop_words budget reader word ms :
  all_of not_space word = true ->
  while_loop moves_step budget (reader, word, []) = Some ms ->
  Forall (fun m => m <> "" /\ all_of not_space m = true) ms.
Proof.
  intros Hw Hrun.
  refine (while_loop_result moves_step
            (fun st => Forall (fun m => m <> "" /\ all_of not_space m = true)
                              (snd st)
                       /\ all_of not_space (snd (fst st)) = true)
            (fun ms => Forall (fun m => m <> "" /\ all_of not_space m = true)
                              ms)
            _ _ budget (reader, word, []) ms _ Hrun).
  - intros [[r w] acc] st' [Hacc Hword] Hstep. unfold moves_step in Hstep.
    destruct w as [|c w0] eqn:Ew; [discriminate|]. cbn [is_empty] in Hstep.
    destruct (read_word_parts r) as (_ & _ & _ & Hw' & _).
    destruct (read_word r) as [r' w']. injection Hstep as <-.
    simpl in *. split; [|exact Hw'].
    apply Forall_app. split; [exact Hacc|].
    constructor; [|constructor]. split; [discriminate|exact Hword].
  - intros [[r w] acc] res' [Hacc _] Hstep. unfold moves_step in Hstep.
    destruct w; [|destruct (read_word r); discriminate].
    injection Hstep as <-. exact Hacc.
  - split; [constructor|exact Hw].
Qed.

Lemma position_handler_outcome budget ctx res :
  position_handler budget ctx = Some res ->
  match res with
  | Return args =>
      Forall (fun m => m <> "" /\ all_of not_space m = true) (moves args)
      /\ ((snd (read_word (new_ArgReader ctx)) = "startpos"
           /\ fen args = live startpos_fen)
          \/ (snd (read_word (new_ArgReader ctx)) = "fen"
              /\ exists written,
                   fen args = dangling written
                   /\ (written = "" \/ exists t, written = t ++ " ")))
  | Throw e => exists what, e = InputError what
  end.
Proof.
  unfold position_handler.
  destruct (read_word (new_ArgReader ctx)) as [reader word].
  cbn [fst snd].
  assert (Hmoves : forall r fen_text res,
             (let '(reader, word) := read_word r in
              if is_empty word then
                Some (Return {| fen := fen_text; moves := [] |})
              else if negb (String.eqb word "moves") then
                Some (Throw (InputError
                               ("Unexpected argument to position: " ++ word)))
              else
                let '(reader, word) := read_word reader in
                match while_loop moves_step budget (reader, word, []) with
                | Some ms => Some (Return {| fen := fen_text; moves := ms |})
                | None => None
                end) = Some res ->
             match res with
             | Return args =>
                 Forall (fun m => m <> "" /\ all_of not_space m = true)
                        (moves args)
                 /\ fen args = fen_text
             | Throw e => exists what, e = InputError what
             end).
  { intros r fen_text res'.
    destruct (read_word r) as [r1 w1].
    destruct (is_empty w1).
    - intros [= <-]. split; [constructor|reflexivity].
    - destruct (negb (w1 =? "moves")%string).
      + intros [= <-]. eauto.
      + destruct (read_word_parts r1) as (_ & _ & _ & Hw2 & _).
        destruct (read_word r1) as [r2 w2]. cbn [snd] in Hw2.
        destruct (while_loop moves_step budget (r2, w2, [])) as [ms|] eqn:Hms;
          [|discriminate].
        intros [= <-]. split; [|reflexivity].
        exact (moves_loop_words budget r2 w2 ms Hw2 Hms). }
  destruct (String.eqb_spec word "startpos") as [Hsp|Hsp].
  - intros Hrun. specialize (Hmoves _ _ _ Hrun).
    destruct res as [args|e]; [|exact Hmoves].
    destruct Hmoves as [Hf Hfen]. split; [exact Hf|]. left. auto.
  - destruct (String.eqb_spec word "fen") as [Hfen|Hfen].
    + destruct (while_loop fen_step budget (reader, "")) as [[r' f]|] eqn:Hloop;
        [|discriminate].
      intros Hrun. specialize (Hmoves _ _ _ Hrun).
      destruct res as [args|e]; [|exact Hmoves].
      destruct Hmoves as [Hf Hfe]. split; [exact Hf|]. right.
      split; [exact Hfen|]. exists f. split; [exact Hfe|].
      exact (fen_loop_text budget reader (r', f) Hloop).
    + destruct (is_empty word); intros [= <-]; eauto.
Qed.

(** X19: what the position handler ends with. Every move token it hands
    over is a non-empty word without white space. After [startpos] the
    fen view is a live view of the initial position. After [fen] the
    view dangles: the string it was taken from, which was empty or ended
    with a space, no longer exists, so the client is handed no defined
    fen text. The handler throws nothing but [InputError]. *)
Theorem position_handler_result budget ctx res :
  position_handler budget ctx = Some res ->
  match res with
  | Return args =>
      Forall (fun m => m <> "" /\ all_of not_space m = true) (moves args)
      /\ ((snd (read_word (new_ArgReader ctx)) = "startpos"
           /\ fen args = live startpos_fen)
          \/ (snd (read_word (new_ArgReader ctx)) = "fen"
              /\ exists written,
                   fen args = dangling written
                   /\ (written = "" \/ exists t, written = t ++ " ")))
  | Throw e => exists what, e = InputError what
  end.
Proof. apply position_handler_outcome. Qed.

Lemma position_handler_result_witness :
  Forall (fun m => m <> "" /\ all_of not_space m = true) ["a2a3"; "h7h6"]
  /\ exists written,
       dangling "8/8/8/8/8/8/8/8 w - - 0 1 " = dangling written
       /\ (written = "" \/ exists t, written = t ++ " ").
Proof.
  destruct (position_handler_result 9
              "fen 8/8/8/8/8/8/8/8  w - - 0 1 moves a2a3 h7h6"
              (Return {| fen := dangling "8/8/8/8/8/8/8/8 w - - 0 1 ";
                         moves := ["a2a3"; "h7h6"] |}))
    as [Hmoves [[Hword _]|[_ Hfen]]].
  - vm_compute. reflexivity.
  - vm_compute in Hword. discriminate Hword.
  - split; [exact Hmoves|exact Hfen].
Defined.

(** ** The main loop *)

Lemma split_command_line ws0 name ws ctx :
  all_of isspace ws0 = true ->
  name <> "" -> all_of not_space name = true ->
  all_of isspace ws = true ->
  stops not_space (ws ++ ctx) = true ->
  stops isspace ctx = true ->
  split_command (ws0 ++ name ++ ws ++ ctx) = (name, ctx).
Proof.
  intros Hws0 Hne Hname Hws Hstop Hctx. unfold split_command.
  destruct (read_word_step (new_ArgReader (ws0 ++ name ++ ws ++ ctx))
              ws0 name (ws ++ ctx)) as [Hw Hrem]; auto.
  destruct (read_word (new_ArgReader (ws0 ++ name ++ ws ++ ctx)))
    as [reader command]. simpl in Hw, Hrem. subst command.
  f_equal.
  rewrite (skip_whitespace_run reader ws ctx) by assumption.
  unfold peek_remainder in *. simpl.
  rewrite substr_from_add, Hrem. apply substr_from_append.
Qed.

(** X20: a line whose command word is not in the command table writes
    [Unknown command.] to the standard error and changes nothing else,
    and the loop goes on: on input made of such lines only, [main_loop]
    reads every line and returns at the end of the input, with one
    [Unknown command.] per line. An empty or blank line is such a line
    unless a command is registered under the empty name. *)
Theorem main_loop_unknown_commands budget lines p :
  (forall line, In line lines ->
                s_cmd_handlers p !! fst (split_command line) = None) ->
  main_loop budget lines p
  = Reading (mkProcess (options p) (s_cmd_handlers p) (s_err_handler p)
                       (client_calls p) (cout p)
                       (cerr p ++ repeat Unknown_command (length lines))).
Proof.
  revert p. induction lines as [|line lines IH]; intros p Hall.
  - simpl. rewrite app_nil_r. destruct p. reflexivity.
  - simpl. unfold process_line.
    pose proof (Hall line (or_introl eq_refl)) as Hl.
    destruct (split_command line) as [command ctx]. simpl in Hl.
    rewrite Hl. rewrite IH.
    + simpl. rewrite <- app_assoc. reflexivity.
    + intros l Hin. simpl. apply Hall. right. exact Hin.
Qed.

Lemma main_loop_unknown_commands_witness :
  let p := register_go 0%nat new_Process in
  main_loop 0 ["hello"; ""; "  debug on"] p
  = Reading (mkProcess (options p) (s_cmd_handlers p) (s_err_handler p)
                       (client_calls p) (cout p)
                       (cerr p ++ repeat Unknown_command 3)).
Proof.
  intros p.
  apply (main_loop_unknown_commands 0 ["hello"; ""; "  debug on"] p).
  intros line [<-|[<-|[<-|[]]]]; reflexivity.
Defined.

Lemma set_world_same p : set_world (options p) p = p.
Proof. destruct p. reflexivity. Qed.

(** A handler writes nothing to the standard error, and leaves the
    process as it is when it throws an [InputError]. *)
Lemma run_handler_effects budget h ctx p :
  match run_handler budget h ctx p with
  | Returned p' =>
      cerr p' = cerr p /\ s_err_handler p' = s_err_handler p
  | Thrown p' e =>
      cerr p' = cerr p /\ s_err_handler p' = s_err_handler p
      /\ (e <> std_bad_variant_access -> p' = p)
  | Exited status p' => status = 0 /\ p' = p /\ h = quit_lambda
  | StillRunning =>
      (exists f, h = go_lambda f) \/ (exists f, h = position_lambda f)
  end.
Proof.
  destruct h; simpl; auto.
  - destruct (go_handler budget ctx) as [[a|e]|]; simpl; eauto.
  - destruct (position_handler budget ctx) as [[a|e]|]; simpl; eauto.
  - destruct (uci_handler engine_name author_name (options p));
      simpl; auto.
  - pose proof (setoption_handler_throw_world ctx (options p)) as Hw.
    destruct (setoption_handler ctx (options p)) as [w [[]|e]]; simpl; auto.
    repeat split. intros Hne. simpl in Hw.
    rewrite (Hw e eq_refl Hne). apply set_world_same.
Qed.

(** X21: a line answered with [Error: what] on the standard error has
    had no other effect: the option table, the command table, the calls
    to client callbacks and the standard output are as before the line.
    Nothing else is written to the standard error by the line. *)
Theorem process_line_error_only budget line p p' what :
  process_line budget line p = Reading p' ->
  cerr p' = (cerr p ++ [Error_ what])%list ->
  p' = print_err (Error_ what) p.
Proof.
  unfold process_line.
  destruct (split_command line) as [command ctx].
  destruct (s_cmd_handlers p !! command) as [h|].
  - pose proof (run_handler_effects budget h ctx p) as Heff.
    destruct (run_handler budget h ctx p) as [p1|p1 e|st p1|];
      try discriminate.
    + destruct Heff as [Hc _]. intros [= <-] Herr. rewrite Hc in Herr.
      apply (f_equal (@length _)) in Herr.
      rewrite length_app in Herr. simpl in Herr. lia.
    + destruct Heff as (Hc & _ & Hsame).
      destruct e as [w| | |];
        try (destruct (s_err_handler p1); [|discriminate];
             intros [= <-] Herr; simpl in Herr; rewrite Hc in Herr;
             apply (f_equal (@length _)) in Herr;
             rewrite length_app in Herr; simpl in Herr; lia).
      intros [= <-] Herr. simpl in Herr. rewrite Hc in Herr.
      apply app_inj_tail in Herr as [_ [= ->]].
      rewrite Hsame by discriminate. reflexivity.
  - intros [= <-] Herr. simpl in Herr.
    apply app_inj_tail in Herr as [_ Herr]. discriminate.
Qed.

Lemma process_line_error_only_witness :
  let p := register_go 0%nat new_Process in
  match process_line 1 "go ponder" p with
  | Reading p' => p'
  | _ => p
  end = print_err (Error_ "Unexpected argument for go: ponder") p.
Proof.
  intros p.
  apply (process_line_error_only 1 "go ponder" p).
  - vm_compute. reflexivity.
  - vm_compute. reflexivity.
Defined.

Lemma set_option_same_kind_throws name v w opt e :
  s_options w !! name = Some opt ->
  index (current opt) = index v ->
  snd (set_option name v w) = Throw e ->
  (exists what, e = InputError what) \/ e = std_bad_variant_access.
Proof.
  intros Hl Hi. unfold set_option. rewrite Hl, Hi, Nat.eqb_refl. simpl.
  match goal with
  | |- context [match ?rc with Return _ => _ | Throw _ => _ end] =>
      destruct rc as [[]|e'] eqn:Hrc
  end.
  - destruct (invoke (change_handler opt) v) as [c|e'] eqn:Hinv; simpl;
      [discriminate|].
    intros [= <-]. right.
    unfold invoke, get_int64, get_string in Hinv.
    destruct (change_handler opt), v; congruence.
  - simpl. intros [= <-].
    destruct (OptionType_of_index (index v)); try discriminate.
    unfold get_int64 in Hrc. destruct v; try (injection Hrc as <-; auto).
    destruct (v >? max opt); [injection Hrc as <-; eauto|].
    destruct (v <? min opt); [injection Hrc as <-; eauto|discriminate].
Qed.

Lemma type_index opt :
  match type opt with
  | Button => index (current opt) = 0%nat
  | Spin => index (current opt) = 1%nat
  | String_ => index (current opt) = 2%nat
  | Check => index (current opt) = 3%nat
  end.
Proof. unfold type. destruct (current opt); reflexivity. Qed.

Lemma setoption_handler_throws ctx w e :
  snd (setoption_handler ctx w) = Throw e ->
  (exists what, e = InputError what)
  \/ e = std_invalid_argument "stoll"
  \/ e = std_out_of_range "stoll"
  \/ e = std_bad_variant_access.
Proof.
  unfold setoption_handler.
  destruct (read_word (new_ArgReader ctx)) as [r1 k1].
  destruct (negb (k1 =? "name")%string); [intros [= <-]; eauto|].
  destruct (read_word r1) as [r2 name].
  destruct (is_empty name); [intros [= <-]; eauto|].
  destruct (s_options w !! name) as [opt|] eqn:Hl; [|intros [= <-]; eauto].
  destruct (read_word r2) as [r3 k3].
  destruct (negb (k3 =? "value")%string); [intros [= <-]; eauto|].
  destruct (read_word r3) as [r4 value].
  pose proof (type_index opt) as Hti.
  assert (Hset : forall v, index (current opt) = index v ->
                           snd (set_option name v w) = Throw e ->
                           (exists what, e = InputError what)
                           \/ e = std_invalid_argument "stoll"
                           \/ e = std_out_of_range "stoll"
                           \/ e = std_bad_variant_access).
  { intros v Hi Hs.
    destruct (set_option_same_kind_throws name v w opt e Hl Hi Hs); auto. }
  destruct (type opt).
  - apply Hset. exact Hti.
  - destruct (stoll_outcomes value) as [(v & Hv & _)|[Hv|Hv]]; rewrite Hv.
    + apply Hset. exact Hti.
    + intros [= <-]. auto.
    + intros [= <-]. auto.
  - apply Hset. exact Hti.
  - apply Hset. exact Hti.
Qed.

Lemma option_line_throws opt e :
  option_line opt = Throw e -> e = std_bad_variant_access.
Proof.
  unfold option_line, bind, get_int64, get_string, get_bool.
  destruct (info_type opt); try discriminate;
    destruct (info_default_value opt); try discriminate;
    try (intros [= <-]; reflexivity);
    destruct (info_min opt); try discriminate;
    try (intros [= <-]; reflexivity);
    destruct (info_max opt); try discriminate;
    intros [= <-]; reflexivity.
Qed.

Lemma uci_handler_throws engine_name author_name w e :
  uci_handler engine_name author_name w = Throw e ->
  e = std_bad_variant_access.
Proof.
  unfold uci_handler.
  assert (H : forall l, option_lines l = Throw e ->
                        e = std_bad_variant_access).
  { induction l as [|o l IH]; simpl; [discriminate|].
    destruct (option_line o) as [line|e'] eqn:Ho; simpl.
    - destruct (option_lines l) as [ls|e'] eqn:Hl; simpl; [discriminate|].
      intros [= <-]. apply IH. reflexivity.
    - intros [= <-]. exact (option_line_throws o e' Ho). }
  destruct (option_lines (get_all_options w)) as [ls|e'] eqn:Hl; simpl;
    [discriminate|].
  intros [= <-]. apply H in Hl. exact Hl.
Qed.

(** X22: the only ways a line ends the process through
    [std::terminate]: no error handler has been installed, and the
    handler of the command has let through an exception that is not an
    [InputError]. For the built-in handlers that is the
    [std::out_of_range] of [std::stoll] in the go or the setoption
    handler, the [std::invalid_argument] of [std::stoll] in the
    setoption handler, or a [std::bad_variant_access] in the setoption
    or the uci handler. [Fatal:] with the exception is the last thing
    written to the standard error. *)
Theorem process_line_terminated budget line p p' :
  process_line budget line p = ProcessTerminated p' ->
  s_err_handler p = None
  /\ exists h e,
       s_cmd_handlers p !! fst (split_command line) = Some h
       /\ cerr p' = (cerr p ++ [Fatal e])%list
       /\ ((e = std_out_of_range "stoll"
            /\ ((exists f, h = go_lambda f) \/ h = setoption_lambda))
           \/ (e = std_invalid_argument "stoll" /\ h = setoption_lambda)
           \/ (e = std_bad_variant_access
               /\ (h = setoption_lambda
                   \/ exists n a, h = uci_lambda n a))).
Proof.
  unfold process_line.
  destruct (split_command line) as [command ctx]. simpl.
  destruct (s_cmd_handlers p !! command) as [h|]; [|discriminate].
  pose proof (run_handler_effects budget h ctx p) as Heff.
  destruct (run_handler budget h ctx p) as [p1|p1 e|st p1|] eqn:Hrun;
    try discriminate.
  destruct Heff as (Hc & He & _).
  assert (Hterm : (forall what, e <> InputError what) ->
                  match s_err_handler p1 with
                  | Some f => Reading (log_call (called_error_handler f e) p1)
                  | None => ProcessTerminated (print_err (Fatal e) p1)
                  end = ProcessTerminated p' ->
                  s_err_handler p = None
                  /\ cerr p' = (cerr p ++ [Fatal e])%list).
  { intros _. rewrite <- He. destruct (s_err_handler p1); [discriminate|].
    intros [= <-]. simpl. rewrite Hc. auto. }
  assert (Hcase :
            (exists what, e = InputError what)
            \/ (e = std_out_of_range "stoll"
                /\ ((exists f, h = go_lambda f) \/ h = setoption_lambda))
            \/ (e = std_invalid_argument "stoll" /\ h = setoption_lambda)
            \/ (e = std_bad_variant_access
                /\ (h = setoption_lambda
                    \/ exists n a, h = uci_lambda n a))).
  { destruct h; simpl in Hrun; try discriminate.
    - destruct (go_handler budget ctx) as [[a|e']|] eqn:Hgo;
        try discriminate.
      injection Hrun as _ <-.
      pose proof (go_handler_outcome budget ctx (Throw e') Hgo) as Ho.
      simpl in Ho. destruct Ho as [->|[->|[[tok ->]| ->]]]; eauto 8.
    - destruct (position_handler budget ctx) as [[a|e']|] eqn:Hpos;
        try discriminate.
      injection Hrun as _ <-.
      pose proof (position_handler_outcome budget ctx (Throw e') Hpos) as Ho.
      simpl in Ho. left. exact Ho.
    - destruct (uci_handler engine_name author_name (options p))
        as [ls|e'] eqn:Huci; try discriminate.
      injection Hrun as _ <-. apply uci_handler_throws in Huci. subst e'.
      right. right. right. eauto.
    - pose proof (setoption_handler_throws ctx (options p)) as Hth.
      destruct (setoption_handler ctx (options p)) as [w [[]|e']];
        try discriminate.
      injection Hrun as _ <-.
      destruct (Hth e' eq_refl) as [Hie|[->|[->| ->]]]; auto 8. }
  destruct Hcase as [[what ->]|Hcase]; [discriminate|].
  intros Hres.
  destruct (Hterm) as [Hnone Hcerr].
  { intros what ->. destruct Hcase as [[? _]|[[? _]|[? _]]]; discriminate. }
  { destruct e; [destruct Hcase as [[? _]|[[? _]|[? _]]]; discriminate
                | exact Hres | exact Hres | exact Hres]. }
  split; [exact Hnone|]. exists h, e. auto.
Qed.

Lemma process_line_terminated_witness :
  s_err_handler
    (register_setoption
       (set_world (register_spin_option "Hash" 32 1 1024 0%nat empty_world)
                  new_Process)) = None.
Proof.
  eapply (process_line_terminated 0 "setoption name Hash value lots").
  vm_compute. reflexivity.
Defined.

(** X23: a command registered with [register_custom_command] is the one
    the main loop runs for its name, whatever was registered under that
    name before. The handler receives the text after the command word
    and the white space that follows it; white space in front of the
    command word is ignored. *)
Theorem custom_command_dispatch budget ws0 name ws ctx f p :
  all_of isspace ws0 = true ->
  name <> "" -> all_of not_space name = true ->
  all_of isspace ws = true ->
  stops not_space (ws ++ ctx) = true ->
  stops isspace ctx = true ->
  process_line budget (ws0 ++ name ++ ws ++ ctx)
               (register_custom_command name (client_handler f) p)
  = Reading (log_call (called_command f ctx)
                      (register_custom_command name (client_handler f) p)).
Proof.
  intros Hws0 Hne Hname Hws Hstop Hctx. unfold process_line.
  rewrite (split_command_line ws0 name ws ctx) by assumption.
  simpl. rewrite lookup_insert_eq. reflexivity.
Qed.

Lemma custom_command_dispatch_witness :
  process_line 0 "  isready   now please"
               (register_custom_command "isready" (client_handler 9%nat)
                  (register_isready new_Process))
  = Reading (log_call (called_command 9%nat "now please")
               (register_custom_command "isready" (client_handler 9%nat)
                  (register_isready new_Process))).
Proof.
  apply (custom_command_dispatch 0 "  " "isready" "   " "now please");
    first [reflexivity | discriminate].
Defined.

(** ** Reporting, continued *)

Lemma fold_left_append_start {A : Type} (f : A -> string) (l : list A)
      (start : string) :
  fold_left (fun line a => line ++ " " ++ f a) l start
  = start ++ fold_left (fun line a => line ++ " " ++ f a) l "".
Proof.
  revert start. induction l as [|a l IH]; intros start; cbn [fold_left].
  - rewrite append_empty_r. reflexivity.
  - rewrite IH, (IH ("" ++ " " ++ f a)), append_assoc. reflexivity.
Qed.

(** X24: [report_info] writes [info] and then, for every argument in
    order, one space and the text of the argument. A [Conditional] whose
    condition is false prints no text of its own, but the space in front
    of it is written all the same. *)
Theorem report_info_fragments args1 arg args2 :
  report.report_info (args1 ++ arg :: args2)
  = report.report_info args1 ++ " " ++ report.print arg
    ++ substr_from 4 (report.report_info args2)
  /\ forall info,
      report.report_info (args1 ++ report.Conditional false info :: args2)
      = report.report_info args1 ++ " "
        ++ substr_from 4 (report.report_info args2).
Proof.
  assert (H : forall a,
             report.report_info (args1 ++ a :: args2)
             = report.report_info args1 ++ " " ++ report.print a
               ++ substr_from 4 (report.report_info args2)).
  { intros a. unfold report.report_info.
    rewrite fold_left_app. cbn [fold_left].
    rewrite (fold_left_append_start report.print args2
               (fold_left _ args1 "info" ++ " " ++ report.print a)).
    rewrite (fold_left_append_start report.print args2 "info").
    change (substr_from 4 ("info" ++ ?x)) with x.
    rewrite !append_assoc. reflexivity. }
  split; [apply H|].
  intros info. rewrite H. reflexivity.
Qed.

(** ** Score, continued *)

(** X25: with a mate constant [m] and a threshold [t] that are not
    negative, a score whose absolute value lies between [m - t] and [m]
    is printed as a mate score: [score mate k], where [k] counts at most
    [(t + 1) / 2] moves, is not negative for a positive score and not
    positive otherwise, and is 0 when the absolute value is [m]
    itself. *)
Theorem print_Score_mate_range (s m t : Z) :
  INT_MIN < s <= INT_MAX ->
  0 <= m < INT_MAX ->
  0 <= t <= INT_MAX ->
  m - t <= Z.abs s <= m ->
  exists k,
    info.print_Score (info.Score_3 s m t) = "score mate " ++ to_string k
    /\ Z.abs k <= (t + 1) / 2
    /\ (0 < s -> 0 <= k)
    /\ (s <= 0 -> k <= 0)
    /\ (Z.abs s = m -> k = 0).
Proof.
  unfold INT_MIN, INT_MAX. intros Hs Hm Ht Hrange.
  assert (Has : wrap_int (Z.abs s) = Z.abs s)
    by (apply wrap_int_small; unfold in_int, INT_MIN, INT_MAX; lia).
  assert (Ham : wrap_int (Z.abs m) = m)
    by (rewrite wrap_int_small; unfold in_int, INT_MIN, INT_MAX; lia).
  assert (Hth : wrap_int (m - t) = m - t)
    by (apply wrap_int_small; unfold in_int, INT_MIN, INT_MAX; lia).
  assert (Hpl : wrap_int (m - Z.abs s) = m - Z.abs s)
    by (apply wrap_int_small; unfold in_int, INT_MIN, INT_MAX; lia).
  assert (Hp1 : wrap_int (m - Z.abs s + 1) = m - Z.abs s + 1)
    by (apply wrap_int_small; unfold in_int, INT_MIN, INT_MAX; lia).
  set (moves := (m - Z.abs s + 1) / 2).
  assert (Hq : Z.quot (m - Z.abs s + 1) 2 = moves)
    by (apply Z.quot_div_nonneg; lia).
  assert (Hmoves : 0 <= moves <= (t + 1) / 2).
  { unfold moves. split.
    - apply Z.div_pos; lia.
    - apply Z.div_le_mono; lia. }
  assert (Hzero : Z.abs s = m -> moves = 0).
  { intros He. unfold moves. rewrite He.
    replace (m - m + 1) with 1 by lia. reflexivity. }
  assert (Hbig : (t + 1) / 2 < 2 ^ 31).
  { apply Z.div_lt_upper_bound; lia. }
  unfold info.print_Score, info.Score_3. cbn [info.score
    info.allow_mate_scores info.mate_score info.mate_threshold negb orb].
  rewrite Has, Ham, Hth, Hpl, Hp1, Hq.
  destruct (Z.ltb_spec (Z.abs s) (m - t)) as [Hlt|_]; [lia|].
  destruct (Z.gtb_spec s 0) as [Hpos|Hnpos].
  - exists moves. split; [reflexivity|]. repeat split; lia.
  - exists (- moves). rewrite wrap_int_small
      by (unfold in_int, INT_MIN, INT_MAX; lia).
    split; [reflexivity|]. repeat split; lia.
Qed.

Lemma print_Score_mate_range_witness :
  exists k,
    info.print_Score (info.Score_3 (-997) 1000 10) = "score mate " ++ to_string k
    /\ Z.abs k <= (10 + 1) / 2.
Proof.
  destruct (print_Score_mate_range (-997) 1000 10) as (k & H1 & H2 & _);
    try (unfold INT_MIN, INT_MAX; simpl; lia).
  exists k. split; [exact H1|exact H2].
Defined.

(** ** The work thread, continued *)

(** The first call of [awake_work_thread] or [launch_work_thread] can
    let the thread run before the members it uses exist. *)
Example run_can_precede_members :
  system_reachable Undefined_behaviour.
Proof.
  refine (system_next _ _ _ (step_run_before_members [] None)).
  refine (reach_statement make_WorkThread [] None [init_members] _
            eq_refl _).
  exact (system_next _ _ system_initial (step_awake None)).
Qed.

(** X26: a launch made while the body of an earlier task [a] is in
    execution neither waits for that body nor reliably stops it. Inside
    [launch_work_thread(b)] the state after [stop_work_thread()], in
    which the flag polled by the body of [a] reads true, can be
    reached; the next statement, [submit_task(b)], lowers the flag
    again while the body of [a] is still in execution. From then on the
    body of [a] polls false, and [b] stays installed and is not taken
    before that body returns. *)
Theorem launch_can_lose_stop_request a b :
  let stopped :=
    {| m_task := None; m_kill := false; m_stop := true;
       task_to_run := Some a; returned := false |} in
  let submitted :=
    {| m_task := Some b; m_kill := false; m_stop := false;
       task_to_run := Some a; returned := false |} in
  system_reachable (Live [call_submit_task b] (Some stopped))
  /\ should_stop stopped = true
  /\ worker_step (Live [call_submit_task b] (Some stopped))
                 (Live [] (Some submitted))
  /\ should_stop submitted = false
  /\ run_wakes submitted = None
  /\ work_thread_running (Some submitted) = true.
Proof.
  intros stopped submitted.
  split; [|split; [reflexivity|split; [|repeat split]]].
  - refine (reach_statement store_stop [call_submit_task b]
              (Some {| m_task := None; m_kill := false; m_stop := false;
                       task_to_run := Some a; returned := false |})
              [] _ eq_refl _).
    refine (reach_statement make_WorkThread
              [store_stop; call_submit_task b]
              (Some {| m_task := None; m_kill := false; m_stop := false;
                       task_to_run := Some a; returned := false |})
              [] _ eq_refl _).
    exact (system_next _ _ (first_task_in_body a) (step_launch b _)).
  - exact (step_statement (call_submit_task b) [] (Some stopped) [] _
             eq_refl).
Qed.

Lemma system_invariant_holds sys :
  system_reachable sys -> system_invariant sys.
Proof.
  induction 1 as [|sys sys' Hreach IH Hstep]; [reflexivity|].
  destruct Hstep as [s|s|task s| |t|st rest s more s' Hexec|rest t Hret
                    |rest s|main t t' Hrun|main t t' Hret];
    try exact I.
  - destruct s as [t|]; [|reflexivity].
    destruct IH as (_ & I1 & I2 & _ & I4).
    split; [reflexivity|]. split; [exact I1|]. split; [|split].
    + split; [|discriminate]. intros Hk. apply I2 in Hk. discriminate.
    + discriminate.
    + exact I4.
  - destruct s as [t|]; [|reflexivity].
    destruct IH as (_ & I1 & I2 & _ & I4).
    split; [reflexivity|]. split; [exact I1|]. split; [|split].
    + split; [|discriminate]. intros Hk. apply I2 in Hk. discriminate.
    + discriminate.
    + exact I4.
  - destruct s as [t|]; [|reflexivity].
    destruct IH as (_ & I1 & I2 & _ & I4).
    split; [reflexivity|]. split; [exact I1|]. split; [|split].
    + split; [|discriminate]. intros Hk. apply I2 in Hk. discriminate.
    + discriminate.
    + exact I4.
  - destruct IH as (_ & I1 & I2 & _ & I4).
    split; [reflexivity|]. split; [exact I1|]. split; [|split].
    + split; [|discriminate]. intros Hk. apply I2 in Hk. discriminate.
    + discriminate.
    + exact I4.
  - destruct s as [t|].
    + destruct IH as (Hc & I1 & I2 & I3 & I4).
      assert (Hnk : st <> join_thread -> m_kill t = false).
      { intros Hst. destruct (m_kill t) eqn:Hk; [|reflexivity].
        destruct I2 as [I2 _]. specialize (I2 eq_refl).
        injection I2 as -> _. contradiction. }
      assert (Hnr : st <> join_thread -> returned t = false).
      { intros Hst. destruct (returned t) eqn:Hr; [|reflexivity].
        destruct (I1 eq_refl) as [Hk _]. rewrite (Hnk Hst) in Hk.
        discriminate. }
      destruct st; simpl in Hexec; try discriminate;
        injection Hexec as <- <-;
        destruct rest as [|[] [|[] [|? ?]]]; try discriminate Hc;
        simpl; (split; [reflexivity|]);
        rewrite ?Hnk, ?Hnr by discriminate;
        repeat split; try discriminate; try reflexivity;
        try (intros _; apply I3; reflexivity).
    + destruct st; simpl in Hexec; try discriminate;
        injection Hexec as <- <-;
        destruct rest as [|[] [|[] [|? ?]]]; try discriminate IH;
        simpl; try reflexivity;
        repeat split; try discriminate; try reflexivity.
  - destruct IH as (Hc & I1 & I2 & I3 & I4).
    unfold run_wakes in Hrun.
    destruct (returned t) eqn:Hr; [discriminate|].
    destruct (task_to_run t) eqn:Ht; [discriminate|].
    destruct (m_kill t) eqn:Hk.
    + injection Hrun as <-. simpl.
      split; [exact Hc|]. split; [auto|]. split; [exact I2|].
      split; [exact I3|exact I4].
    + destruct (m_task t); [|discriminate]. injection Hrun as <-. simpl.
      split; [exact Hc|]. split; [discriminate|]. split; [exact I2|].
      split; [exact I3|exact I4].
  - destruct IH as (Hc & I1 & I2 & I3 & I4).
    unfold body_returns in Hret.
    destruct (task_to_run t) eqn:Ht; [|discriminate].
    injection Hret as <-. simpl. split; [exact Hc|].
    split; [|split; [exact I2|split; [exact I3|exact I4]]].
    intros Hr. destruct (I1 Hr) as [Hk _]. auto.
Qed.

Lemma exit_only_after_run sys :
  system_reachable sys -> worker_step sys Exited_process ->
  sys = Live [] None
  \/ exists t,
       sys = Live [join_thread] (Some t)
       /\ returned t = true /\ task_to_run t = None
       /\ m_kill t = true /\ m_stop t = true.
Proof.
  intros Hreach Hstep. apply system_invariant_holds in Hreach.
  inversion Hstep as [| | | Heq | | |rest t Hret Heq| | | ]; subst.
  - left. reflexivity.
  - right. destruct Hreach as (_ & I1 & I2 & _ & I4).
    destruct (I1 Hret) as [Hk Ht]. exists t.
    destruct I2 as [I2 _]. rewrite (I2 Hk).
    split; [reflexivity|]. split; [exact Hret|]. split; [exact Ht|].
    split; [exact Hk|exact (I4 Hk)].
Qed.

(** X27: the process comes to its end in two ways only. Either no work
    thread was ever made; or the destructor of the work thread has
    raised the stop flag and the kill flag and is at [join], and [run]
    has returned outside any task body. In particular the process does
    not end while a task body is in execution, and a body that never
    returns keeps it from ending. *)
Theorem process_exit_joins_run sys :
  system_reachable sys -> worker_step sys Exited_process ->
  sys = Live [] None
  \/ exists t,
       sys = Live [join_thread] (Some t)
       /\ returned t = true /\ task_to_run t = None
       /\ m_kill t = true /\ m_stop t = true.
Proof. apply exit_only_after_run. Qed.

Lemma process_exit_joins_run_witness :
  let t := {| m_task := None; m_kill := true; m_stop := true;
              task_to_run := None; returned := true |} in
  Live [join_thread] (Some t) = Live [] None
  \/ exists t',
       Live [join_thread] (Some t) = Live [join_thread] (Some t')
       /\ returned t' = true /\ task_to_run t' = None
       /\ m_kill t' = true /\ m_stop t' = true.
Proof.
  intros t. apply (process_exit_joins_run (Live [join_thread] (Some t))).
  - refine (system_next _ _ _
              (step_run_wakes [join_thread]
                 (set_kill (stop_current_task new_WorkThread)) _ eq_refl)).
    refine (reach_statement store_kill [join_thread]
              (Some (stop_current_task new_WorkThread)) [] _ eq_refl _).
    refine (reach_statement store_stop [store_kill; join_thread]
              (Some new_WorkThread) [] _ eq_refl _).
    refine (system_next _ _ _ (step_exit new_WorkThread)).
    refine (reach_statement init_members [] None [] _ eq_refl _).
    refine (reach_statement make_WorkThread [] None [init_members] _
              eq_refl _).
    exact (system_next _ _ system_initial (step_awake None)).
  - apply step_join. reflexivity.
Defined.

(** ** Printed integers read back *)

Lemma printed_digits_all u :
  all_of isdigit (NilEmpty.string_of_uint u) = true.
Proof. induction u; simpl; auto. Qed.

Lemma printed_digits_acc u acc :
  digits_value (Zpos acc) (NilEmpty.string_of_uint u)
  = Zpos (Pos.of_uint_acc u acc).
Proof.
  revert acc. induction u; intros acc; cbn [NilEmpty.string_of_uint
    digits_value Pos.of_uint_acc]; try reflexivity;
    match goal with
    | |- digits_value ?a _ = Zpos (Pos.of_uint_acc _ ?p) =>
        replace a with (Zpos p)
          by (unfold digit_value; simpl N_of_ascii; lia)
    end; apply IHu.
Qed.

Lemma printed_digits_value u :
  digits_value 0 (NilEmpty.string_of_uint u) = Z.of_N (Pos.of_uint u).
Proof.
  induction u; cbn [NilEmpty.string_of_uint digits_value Pos.of_uint];
    try reflexivity; try exact IHu;
    match goal with
    | |- digits_value ?a _ = Z.of_N (N.pos (Pos.of_uint_acc _ ?p)) =>
        change a with (Zpos p)
    end; apply printed_digits_acc.
Qed.

Lemma printed_positive p :
  exists digits,
    NilZero.string_of_uint (Pos.to_uint p) = digits
    /\ digits <> "" /\ all_of isdigit digits = true
    /\ digits_value 0 digits = Zpos p.
Proof.
  exists (NilEmpty.string_of_uint (Pos.to_uint p)).
  pose proof (DecimalPos.Unsigned.to_uint_nonnil p) as Hnn.
  split; [|split; [|split]].
  - destruct (Pos.to_uint p); [contradiction|reflexivity..].
  - destruct (Pos.to_uint p); [contradiction|discriminate..].
  - apply printed_digits_all.
  - rewrite printed_digits_value, DecimalPos.Unsigned.of_to. reflexivity.
Qed.

(** The text printed for an integer is an optional [-] and digits whose
    value is the integer. *)
Lemma to_string_numeral z :
  exists sign digits,
    to_string z = sign ++ digits
    /\ (sign = "" \/ sign = "-")
    /\ digits <> "" /\ all_of isdigit digits = true
    /\ numeral_value sign digits = z.
Proof.
  unfold to_string, numeral_value. destruct z as [|p|p]; simpl.
  - exists "", "0". repeat split; auto; discriminate.
  - destruct (printed_positive p) as (d & Hd & Hne & Hall & Hval).
    exists "", d. rewrite Hd. repeat split; auto.
  - destruct (printed_positive p) as (d & Hd & Hne & Hall & Hval).
    exists "-", d. rewrite Hd. repeat split; auto.
    simpl. rewrite Hval. reflexivity.
Qed.

(** X28: what the library prints for a 64-bit integer, its reader reads
    back: on white space, the decimal text of [z] and a tail that is
    empty or starts with white space, [try_read_int] and [read_int]
    return [z] and leave the cursor right after the text. *)
Theorem read_int_reads_printed r ws z tail :
  peek_remainder r = ws ++ to_string z ++ tail ->
  all_of isspace ws = true ->
  stops not_space tail = true ->
  in_int64 z ->
  try_read_int r
  = (set_pos r (m_pos r + String.length ws + String.length (to_string z)),
     Return (Some z))
  /\ read_int r
     = (set_pos r (m_pos r + String.length ws + String.length (to_string z)),
        Return z).
Proof.
  intros Hrem Hws Htail Hz.
  destruct (to_string_numeral z) as (sign & digits & Hs & Hsign & Hne & Hd & Hv).
  assert (Hword : all_of not_space (to_string z) = true).
  { rewrite Hs, all_of_append.
    rewrite (all_of_weaken isdigit not_space digits isdigit_not_space Hd).
    destruct Hsign as [-> | ->]; reflexivity. }
  assert (Hwne : to_string z <> "").
  { rewrite Hs. intros He. apply append_is_empty in He as [_ He].
    contradiction. }
  assert (Hstoll : stoll (to_string z) = Return z).
  { rewrite Hs, <- (append_empty_r digits), <- Hv.
    apply stoll_numeric_prefix; auto.
    - destruct Hsign; auto.
    - rewrite Hv. exact Hz. }
  assert (Htry : try_read_int r
                 = (set_pos r (m_pos r + String.length ws
                               + String.length (to_string z)),
                    Return (Some z))).
  { unfold try_read_int. rewrite read_word_after_skip.
    rewrite (read_word_run r ws (to_string z) tail) by assumption.
    rewrite Hstoll. reflexivity. }
  split; [exact Htry|]. unfold read_int. rewrite Htry. reflexivity.
Qed.

Lemma read_int_reads_printed_witness :
  read_int (new_ArgReader (" " ++ to_string (-9223372036854775808) ++ " x"))
  = (set_pos (new_ArgReader (" " ++ to_string (-9223372036854775808) ++ " x"))
             (0 + String.length " "
              + String.length (to_string (-9223372036854775808))),
     Return (-9223372036854775808)).
Proof.
  apply (read_int_reads_printed
           (new_ArgReader (" " ++ to_string (-9223372036854775808) ++ " x"))
           " " (-9223372036854775808) " x");
    first [reflexivity | (vm_compute; split; discriminate)].
Defined.
